(** * recast-detour-rs: the query layer over the Recast/Detour engine

    Shallow embedding of [src/crates/recast-detour-rs/src/lib.rs].

    - [f32] is IEEE-754 binary32, modelled by the Standard Library's
      [SpecFloat] with precision 24 and maximal exponent 128; Rust's
      [+ - * /] on [f32] are the correctly rounded [SFadd], [SFsub], ...
    - the foreign engine ([sys::recastc_*]) is a record of functions
      [Engine]; every call to it is recorded in a trace of [event]s,
      so that the lifecycle of the engine handle can be observed.
    - [Result<T>] plus Rust panics is the outcome type [outcome]. *)

From Stdlib Require Import ZArith Bool List String Lia.
From Stdlib Require Import Floats.SpecFloat.
From Stdlib Require Import Reals Lra.
Import ListNotations.
Open Scope Z_scope.

(** ** binary32 *)

Definition prec32 : Z := 24.
Definition emax32 : Z := 128.

Definition f32 := spec_float.

Definition f32_sub (x y : f32) : f32 := SFsub prec32 emax32 x y.
Definition f32_div (x y : f32) : f32 := SFdiv prec32 emax32 x y.
Definition f32_lt (x y : f32) : bool := SFltb x y.
Definition f32_le (x y : f32) : bool := SFleb x y.

(** A genuine binary32 value: every bit pattern of an [f32] is one of
    these (canonical mantissa, exponent in range). *)
Definition f32_valid (x : f32) : bool := valid_binary prec32 emax32 x.

Definition is_nan (x : f32) : bool :=
  match x with S754_nan => true | _ => false end.

Definition is_finite (x : f32) : bool :=
  match x with S754_zero _ | S754_finite _ _ _ => true | _ => false end.

Definition zero32 : f32 := S754_zero false.

(** [f32::MAX] = (2^24 - 1) * 2^104 and [f32::MIN] = - [f32::MAX]. *)
Definition f32_MAX : f32 := S754_finite false 16777215 104.
Definition f32_MIN : f32 := S754_finite true 16777215 104.

(** [f32::min] / [f32::max] (IEEE minNum / maxNum): a NaN argument is
    ignored; between two numbers the smaller (larger) one is returned.
    The receiver [self] is the first argument; on equal arguments (the
    two zeros included, on which Rust does not fix the choice) the
    compiled code returns [other]. *)
Definition f32_min (self other : f32) : f32 :=
  if is_nan self then other
  else if is_nan other then self
  else if f32_lt self other then self else other.

Definition f32_max (self other : f32) : f32 :=
  if is_nan self then other
  else if is_nan other then self
  else if f32_lt other self then self else other.

(** Integer part (toward zero) of a positive binary32 [m * 2^e]. *)
Definition trunc_pos (m : positive) (e : Z) : Z := Z.shiftl (Zpos m) e.

(** [x as u16]: truncation toward zero, saturating at [0] and [65535];
    NaN gives [0]. *)
Definition u16_MAX : Z := 65535.

Definition f32_as_u16 (x : f32) : Z :=
  match x with
  | S754_nan => 0
  | S754_zero _ => 0
  | S754_infinity false => u16_MAX
  | S754_infinity true => 0
  | S754_finite true _ _ => 0
  | S754_finite false m e => Z.min u16_MAX (trunc_pos m e)
  end.

(** ** Geometry preprocessing *)

Record F3 := mkF3 { x0 : f32; x1 : f32; x2 : f32 }.

(** [compute_bb]: the loop [for i in (0..len).step_by(3)] reads
    [vertices[i]], [vertices[i+1]], [vertices[i+2]]; an index out of
    bounds panics ([None]). *)
Fixpoint compute_bb_loop (vs : list f32) (bmin bmax : F3) : option (F3 * F3) :=
  match vs with
  | [] => Some (bmin, bmax)
  | a :: b :: c :: rest =>
      compute_bb_loop rest
        (mkF3 (f32_min a (x0 bmin)) (f32_min b (x1 bmin)) (f32_min c (x2 bmin)))
        (mkF3 (f32_max a (x0 bmax)) (f32_max b (x1 bmax)) (f32_max c (x2 bmax)))
  | _ => None
  end.

Definition compute_bb (vertices : list f32) : option (F3 * F3) :=
  compute_bb_loop vertices (mkF3 f32_MAX f32_MAX f32_MAX)
    (mkF3 f32_MIN f32_MIN f32_MIN).

(** [world_unit_to_cell_unit]:
    [let f = ((f - bmin) / cs).max(0.0); f as u16] *)
Definition world_unit_to_cell_unit (f bmin cs : f32) : Z :=
  let f := f32_max (f32_div (f32_sub f bmin) cs) zero32 in
  f32_as_u16 f.

(** ** Values and errors *)

(** [pub struct Point([f32; 3])] *)
Record Point := mkPoint { pos : F3 }.

Inductive Error :=
| CreateQueryError (msg : string)
| FindPointError (msg : string)
| FindPathError (msg : string).

(** [Result<T>], together with a Rust panic. *)
Inductive outcome (A : Type) :=
| Ok (a : A)
| Err (e : Error)
| Panic.
Arguments Ok {A} a.
Arguments Err {A} e.
Arguments Panic {A}.

(** ** The foreign interface ([mod sys]) *)

(** Engine pointers: [0] is the null pointer. *)
Definition ptr := Z.

Record RecastNavMeshData := {
  verts : list Z;               (* cell units, u16 *)
  vert_count : Z;
  indices : list Z;             (* u16 *)
  triangles_count : Z;
  nm_bmin : F3;
  nm_bmax : F3;
  nm_walkable_height : f32;
  nm_walkable_radius : f32;
  nm_walkable_climb : f32;
  nm_cell_size : f32;
  nm_cell_height : f32 }.

Record RecastNearestPointInput := { center : F3; half_extents : F3 }.
Record RecastNearestPointResult := { np_pos : F3; np_poly : Z }.
Record RecastPathInput :=
  { start_poly : Z; start_pos : F3; end_poly : Z; end_pos : F3 }.
(** [path] is the engine's fixed-size array, [path_count] the number of
    valid entries. *)
Record RecastPathResult := { path : list Z; path_count : Z }.
Record RecastClosestPointInput := { cp_pos : F3; cp_poly : Z }.
Record RecastClosestPointResult := { cp_result_pos : F3 }.

(** Each engine entry point returns its status code ([0] = failure)
    together with what it wrote into the result and error out-parameters
    ([err.msg()] is the diagnostic string). *)
Record Engine := {
  recastc_create_query : RecastNavMeshData -> ptr * string;
  recastc_free_query : ptr -> unit;
  recastc_find_nearest_point :
    ptr -> RecastNearestPointInput -> Z * RecastNearestPointResult * string;
  recastc_find_path :
    ptr -> RecastPathInput -> Z * RecastPathResult * string;
  recastc_find_closest_point :
    ptr -> RecastClosestPointInput -> Z * RecastClosestPointResult * string }.

(** Observable engine calls. *)
Inductive event :=
| EvCreate (q : ptr)
| EvFree (q : ptr)
| EvNearest (q : ptr) (i : RecastNearestPointInput)
| EvPath (q : ptr) (i : RecastPathInput)
| EvClosest (q : ptr) (i : RecastClosestPointInput).

(** ** The computation monad: outcome and trace of engine calls *)

Definition M (A : Type) := list event -> outcome A * list event.

Definition ret {A} (a : A) : M A := fun tr => (Ok a, tr).
Definition fail {A} (e : Error) : M A := fun tr => (Err e, tr).
Definition panic {A} : M A := fun tr => (Panic, tr).
Definition emit (ev : event) : M unit := fun tr => (Ok tt, tr ++ [ev]).

(** [?]: an [Err] returns early. *)
Definition bind {A B} (m : M A) (k : A -> M B) : M B :=
  fun tr =>
    match m tr with
    | (Ok a, tr') => k a tr'
    | (Err e, tr') => (Err e, tr')
    | (Panic, tr') => (Panic, tr')
    end.

Notation "x <- m ;; k" := (bind m (fun x => k))
  (at level 61, m at next level, right associativity).
Notation "m ;;; k" := (bind m (fun _ => k))
  (at level 61, right associativity).

(** ** [impl RecastQuery] *)

Section Query.
Variable E : Engine.

(** [pub struct RecastQuery { q: ptr::NonNull<c_void> }]: the pointer is
    never null. *)
Record RecastQuery := { q : positive }.

Definition qptr (self : RecastQuery) : ptr := Zpos (q self).

(** [impl Drop for RecastQuery] *)
Definition drop (self : RecastQuery) : M unit :=
  let _ := recastc_free_query E (qptr self) in
  emit (EvFree (qptr self)).

(** [&result.path[0..result.path_count as usize]]: slicing past the end
    of the array panics. *)
Definition path_slice (r : RecastPathResult) : option (list Z) :=
  if Nat.leb (Z.to_nat (path_count r)) (List.length (path r)) then
    Some (firstn (Z.to_nat (path_count r)) (path r))
  else None.

Definition find_closest (self : RecastQuery) (p : Point) (target_poly : Z)
  : M Point :=
  let input := {| cp_pos := pos p; cp_poly := target_poly |} in
  emit (EvClosest (qptr self) input);;;
  let '(res, result, err) := recastc_find_closest_point E (qptr self) input in
  if res =? 0 then fail (FindPointError err)
  else ret (mkPoint (cp_result_pos result)).

Definition find_poly (self : RecastQuery) (p : Point) (r : f32)
  : M (Point * Z) :=
  let input := {| center := pos p; half_extents := mkF3 r r r |} in
  emit (EvNearest (qptr self) input);;;
  let '(res, result, err) := recastc_find_nearest_point E (qptr self) input in
  if res =? 0 then fail (FindPointError err)
  else if np_poly result =? 0 then fail (FindPointError "No poly found"%string)
  else ret (mkPoint (np_pos result), np_poly result).

Definition find_path (self : RecastQuery) (start end_ : Point) (r : f32)
  : M Point :=
  sp <- find_poly self start r;;
  let '(start_p, start_poly) := sp in
  ep <- find_poly self end_ r;;
  let '(end_p, end_poly) := ep in
  let input := {| start_poly := start_poly; start_pos := pos start_p;
                  end_poly := end_poly; end_pos := pos end_p |} in
  emit (EvPath (qptr self) input);;;
  let '(res, result, err) := recastc_find_path E (qptr self) input in
  if res =? 0 then fail (FindPathError err)
  else
    match path_slice result with
    | None => panic
    | Some path =>
        match path with
        | [] => fail (FindPathError "No Path"%string)
        | [_] => ret end_p
        | _ :: p1 :: _ => find_closest self start_p p1
        end
    end.

(** [new_from_mesh]: bounding box, quantization of every vertex against
    the box's minimum, then [recastc_create_query]; a null pointer from
    the engine is a [CreateQueryError]. *)
Fixpoint quantize_verts (vs : list f32) (bmin : F3) (cs : f32) : option (list Z) :=
  match vs with
  | [] => Some []
  | a :: b :: c :: rest =>
      match quantize_verts rest bmin cs with
      | Some l =>
          Some (world_unit_to_cell_unit a (x0 bmin) cs
                :: world_unit_to_cell_unit b (x1 bmin) cs
                :: world_unit_to_cell_unit c (x2 bmin) cs :: l)
      | None => None
      end
  | _ => None
  end.

Record NavMeshData := {
  vertices : list f32;
  nd_indices : list Z;
  walkable_height : f32;
  walkable_radius : f32;
  walkable_climb : f32;
  cell_size : f32;
  cell_height : f32 }.

(** [n as u32] for a non-negative [usize] [n]: truncation to 32 bits. *)
Definition as_u32 (n : Z) : Z := n mod 2 ^ 32.

Definition new_from_mesh (data : NavMeshData) : M RecastQuery :=
  match compute_bb (vertices data) with
  | None => panic
  | Some (bmin, bmax) =>
      match quantize_verts (vertices data) bmin (cell_size data) with
      | None => panic
      | Some cu_verts =>
          let sys_data := {|
            verts := cu_verts;
            vert_count := as_u32 (Z.of_nat (List.length (vertices data)) / 3);
            indices := nd_indices data;
            triangles_count := as_u32 (Z.of_nat (List.length (nd_indices data)) / 3);
            nm_bmin := bmin; nm_bmax := bmax;
            nm_walkable_height := walkable_height data;
            nm_walkable_radius := walkable_radius data;
            nm_walkable_climb := walkable_climb data;
            nm_cell_size := cell_size data;
            nm_cell_height := cell_height data |} in
          let '(p, err) := recastc_create_query E sys_data in
          emit (EvCreate p);;;
          match p with
          | Zpos a => ret {| q := a |}
          | _ => fail (CreateQueryError err)
          end
      end
  end.

End Query.

(** ** Scoped ownership of a [RecastQuery] *)

Section Session.
Variable E : Engine.

(** Queries run against one handle, each with [?] (an error returns
    early from the scope). *)
Fixpoint run_queries (self : RecastQuery) (qs : list (Point * Point * f32))
  : M (list Point) :=
  match qs with
  | [] => ret []
  | (s, e, r) :: qs' =>
      p <- find_path E self s e r;;
      ps <- run_queries self qs';;
      ret (p :: ps)
  end.

(** The end of the scope that owns [self]: [Drop::drop] runs on every
    exit path of the body (normal return, early [Err] return, unwinding
    panic). *)
Definition scoped {A} (self : RecastQuery) (body : M A) : M A :=
  fun tr =>
    let '(o, tr') := body tr in
    let '(_, tr'') := drop E self tr' in
    (o, tr'').

(** [{ let q = RecastQuery::new_from_mesh(data)?; ...queries...; }] *)
Definition session (data : NavMeshData) (qs : list (Point * Point * f32))
  : M (list Point) :=
  self <- new_from_mesh E data;;
  scoped self (run_queries self qs).

End Session.

(** Pointers passed to [recastc_free_query] / returned by
    [recastc_create_query], in the order of the calls. *)
Fixpoint frees (tr : list event) : list ptr :=
  match tr with
  | [] => []
  | EvFree p :: tr' => p :: frees tr'
  | _ :: tr' => frees tr'
  end.

Fixpoint creates (tr : list event) : list ptr :=
  match tr with
  | [] => []
  | EvCreate p :: tr' => p :: creates tr'
  | _ :: tr' => creates tr'
  end.

(** ** A scripted engine, for concrete runs *)

Definition demo_engine (created : ptr) (poly : Z) (path_res : Z)
  (corridor : list Z) (closest_res : Z) (diag : string) : Engine := {|
  recastc_create_query := fun _ => (created, diag);
  recastc_free_query := fun _ => tt;
  recastc_find_nearest_point := fun _ i =>
    (1, {| np_pos := center i; np_poly := poly |}, diag);
  recastc_find_path := fun _ _ =>
    (path_res, {| path := corridor;
                  path_count := Z.of_nat (List.length corridor) |}, diag);
  recastc_find_closest_point := fun _ i =>
    (closest_res, {| cp_result_pos := cp_pos i |}, diag) |}.

Definition demo_point (a : Z) : Point :=
  mkPoint (mkF3 (binary_normalize prec32 emax32 a 0 false) zero32 zero32).

Definition demo_query : RecastQuery := {| q := 1%positive |}.

Definition demo_mesh : NavMeshData := {|
  vertices := [zero32; zero32; zero32];
  nd_indices := [];
  walkable_height := zero32; walkable_radius := zero32;
  walkable_climb := zero32; cell_size := zero32; cell_height := zero32 |}.

(** Coordinate [k] of a three-component array. *)
Definition sel (k : nat) (t : F3) : f32 :=
  match k with 0%nat => x0 t | 1%nat => x1 t | _ => x2 t end.

(** ** The order of [SFcompare] as a lexicographic order *)

Definition lexcmp (a b : Z * Z * Z) : comparison :=
  let '(a1, a2, a3) := a in
  let '(b1, b2, b3) := b in
  match Z.compare a1 b1 with
  | Eq => match Z.compare a2 b2 with Eq => Z.compare a3 b3 | c => c end
  | c => c
  end.

(** Sort key of a non-NaN float: [-inf < negatives < zeros < positives < +inf];
    negatives compare by reversed exponent, then reversed mantissa. *)
Definition fkey (x : f32) : Z * Z * Z :=
  match x with
  | S754_infinity true => (-2, 0, 0)
  | S754_finite true m e => (-1, - e, - Zpos m)
  | S754_zero _ => (0, 0, 0)
  | S754_finite false m e => (1, e, Zpos m)
  | S754_infinity false => (2, 0, 0)
  | S754_nan => (0, 0, 0)
  end.


(** ** Real semantics of binary32 (specification side) *)

Definition bpow (e : Z) : R := powerRZ 2 e.

Definition fexp32 (e : Z) : Z := fexp prec32 emax32 e.

(** The real value of a finite datum. *)
Definition f32_value (x : f32) : R :=
  match x with
  | S754_finite s m e => (IZR (cond_Zopp s (Zpos m)) * bpow e)%R
  | _ => 0%R
  end.

(** The extended reals an [f32] denotes: NaN apart, an infinity or a real. *)
Inductive xr := XNegInf | XFin (r : R) | XPosInf | XNaN.

Definition f32_ext (x : f32) : xr :=
  match x with
  | S754_nan => XNaN
  | S754_infinity s => if s then XNegInf else XPosInf
  | S754_zero _ => XFin 0
  | S754_finite _ _ _ => XFin (f32_value x)
  end.

Definition xr_le (a b : xr) : Prop :=
  match a, b with
  | XNaN, _ | _, XNaN => False
  | XNegInf, _ => True
  | _, XPosInf => True
  | XFin a, XFin b => (a <= b)%R
  | _, _ => False
  end.

Definition f32_ext_le (x y : f32) : Prop := xr_le (f32_ext x) (f32_ext y).

(** [2^(k-1) <= x < 2^k] *)
Definition mag_rel (x : R) (k : Z) : Prop := (bpow (k - 1) <= x < bpow k)%R.

(** [N] is the integer nearest to [u], ties to even. *)
Definition rne_rel (u : R) (N : Z) : Prop :=
  (Rabs (IZR N - u) <= / 2)%R /\ (Rabs (IZR N - u) = / 2 -> Z.even N = true)%R.

(** [m] is the integer part of [u >= 0] and [l] tells where [u] lies
    between [m] and [m + 1]. *)
Definition loc_rel (u : R) (m : Z) (l : location) : Prop :=
  (IZR m <= u < IZR m + 1)%R /\
  match l with
  | loc_Exact => u = IZR m
  | loc_Inexact c =>
      u <> IZR m /\
      match c with
      | Lt => (u - IZR m < / 2)%R
      | Eq => (u - IZR m = / 2)%R
      | Gt => (u - IZR m > / 2)%R
      end
  end.

(** The magnitude [V] rounded with sign [sx]: infinite past [2^128]. *)
Definition round_val (sx : bool) (V : R) (r : f32) : Prop :=
  ((V >= bpow emax32)%R /\ f32_ext r = (if sx then XNegInf else XPosInf)) \/
  ((V < bpow emax32)%R /\ f32_ext r = XFin (if sx then (- V)%R else V)).

(** [r] is [x > 0] rounded to nearest-even with sign [sx]. *)
Definition round_pos (sx : bool) (x : R) (r : f32) : Prop :=
  exists k N, mag_rel x k /\ rne_rel (x / bpow (fexp32 k)) N /\
    round_val sx (IZR N * bpow (fexp32 k)) r.

(** [r] is the binary32 rounding (to nearest, ties to even) of [x]. *)
Definition rounds_to (x : R) (r : f32) : Prop :=
  (x = 0%R /\ exists s, r = S754_zero s) \/
  ((0 < x)%R /\ round_pos false x r) \/
  ((x < 0)%R /\ round_pos true (- x) r).

(** The invariant of [SpecFloat]'s right-shift record: its mantissa is the
    integer part of [u] and its location tells where [u] lies between it
    and its successor. *)
Definition shr_inv (u : R) (rec : shr_record) : Prop :=
  loc_rel u (shr_m rec) (loc_of_shr_record rec).

(** Saturating truncation of an extended real into [0, u16::MAX]:
    [n] is the integer part of [max v 0], capped at [u16::MAX]; [-inf]
    and NaN give [0], [+inf] gives [u16::MAX]. *)
Definition u16_of_xr (a : xr) (n : Z) : Prop :=
  match a with
  | XNaN | XNegInf => n = 0%Z
  | XPosInf => n = u16_MAX
  | XFin v => exists z, (IZR z <= Rmax v 0 < IZR z + 1)%R /\ n = Z.min u16_MAX z
  end.

(** [1.0_f32] = 2^23 * 2^-23. *)
Definition one32 : f32 := S754_finite false 8388608 (-23).

(** * Proofs *)

(** ** The path-resolution protocol *)

Lemma bind_ok {A B} (m : M A) (k : A -> M B) tr a tr' :
  m tr = (Ok a, tr') -> bind m k tr = k a tr'.
Proof. intros H. unfold bind. rewrite H. reflexivity. Qed.

Lemma bind_err {A B} (m : M A) (k : A -> M B) tr e tr' :
  m tr = (Err e, tr') -> bind m k tr = (Err e, tr').
Proof. intros H. unfold bind. rewrite H. reflexivity. Qed.

Lemma find_poly_trace E self p r tr :
  snd (find_poly E self p r tr) =
  tr ++ [EvNearest (qptr self) {| center := pos p; half_extents := mkF3 r r r |}].
Proof.
  unfold find_poly, bind, emit; simpl.
  destruct (recastc_find_nearest_point _ _ _) as [[res result] err].
  destruct (res =? 0); [reflexivity|].
  destruct (np_poly result =? 0); reflexivity.
Qed.

(** After both endpoints resolved, [find_path] issues the corridor query;
    this lemma reduces it to the dispatch on the corridor. *)
Lemma find_path_after_resolution E self start end_ r tr tr1 tr2
    start_p start_poly end_p end_poly :
  find_poly E self start r tr = (Ok (start_p, start_poly), tr1) ->
  find_poly E self end_ r tr1 = (Ok (end_p, end_poly), tr2) ->
  let input := {| start_poly := start_poly; start_pos := pos start_p;
                  end_poly := end_poly; end_pos := pos end_p |} in
  find_path E self start end_ r tr =
  (let '(res, result, err) := recastc_find_path E (qptr self) input in
   if res =? 0 then fail (FindPathError err)
   else
     match path_slice result with
     | None => panic
     | Some path =>
         match path with
         | [] => fail (FindPathError "No Path"%string)
         | [_] => ret end_p
         | _ :: p1 :: _ => find_closest E self start_p p1
         end
     end) (tr2 ++ [EvPath (qptr self) input]).
Proof.
  intros H1 H2 input.
  unfold find_path. rewrite (bind_ok _ _ _ _ _ H1).
  rewrite (bind_ok _ _ _ _ _ H2). reflexivity.
Qed.

(** C1: when both endpoints resolve and the engine returns a corridor of
    two or more polygons, [find_path] returns what the closest-point
    projection of the start's snapped position onto the second polygon
    of the corridor ([corridor[1]]) returns. *)
Theorem find_path_multi_poly_projects_onto_second
    (E : Engine) (self : RecastQuery) (start end_ : Point) (r : f32)
    (tr tr1 tr2 : list event) (start_p end_p : Point) (start_poly end_poly : Z)
    (res : Z) (result : RecastPathResult) (err : string)
    (p0 p1 : Z) (rest : list Z) :
  find_poly E self start r tr = (Ok (start_p, start_poly), tr1) ->
  find_poly E self end_ r tr1 = (Ok (end_p, end_poly), tr2) ->
  recastc_find_path E (qptr self)
    {| start_poly := start_poly; start_pos := pos start_p;
       end_poly := end_poly; end_pos := pos end_p |} = (res, result, err) ->
  res <> 0 ->
  path_slice result = Some (p0 :: p1 :: rest) ->
  find_path E self start end_ r tr =
  find_closest E self start_p p1
    (tr2 ++ [EvPath (qptr self)
               {| start_poly := start_poly; start_pos := pos start_p;
                  end_poly := end_poly; end_pos := pos end_p |}]).
Proof.
  intros H1 H2 H3 H4 H5.
  rewrite (find_path_after_resolution _ _ _ _ _ _ _ _ _ _ _ _ H1 H2).
  cbv zeta. rewrite H3. apply Z.eqb_neq in H4. rewrite H4, H5. reflexivity.
Qed.

Lemma find_path_multi_poly_projects_onto_second_witness :
  let E := demo_engine 1 7 1 [7; 9] 1 ""%string in
  find_poly E demo_query (demo_point 1) zero32 [] =
    (Ok (demo_point 1, 7), [EvNearest 1 {| center := pos (demo_point 1);
                                              half_extents := mkF3 zero32 zero32 zero32 |}]) /\
  find_path E demo_query (demo_point 1) (demo_point 2) zero32 [] =
  find_closest E demo_query (demo_point 1) 9
    ([EvNearest 1 {| center := pos (demo_point 1);
                     half_extents := mkF3 zero32 zero32 zero32 |};
      EvNearest 1 {| center := pos (demo_point 2);
                     half_extents := mkF3 zero32 zero32 zero32 |}] ++
     [EvPath 1 {| start_poly := 7; start_pos := pos (demo_point 1);
                  end_poly := 7; end_pos := pos (demo_point 2) |}]).
Proof.
  cbv zeta. split; [reflexivity|].
  apply (find_path_multi_poly_projects_onto_second
           (demo_engine 1 7 1 [7; 9] 1 ""%string) demo_query
           (demo_point 1) (demo_point 2) zero32 []
           [EvNearest 1 {| center := pos (demo_point 1);
                           half_extents := mkF3 zero32 zero32 zero32 |}]
           _ (demo_point 1) (demo_point 2) 7 7 1
           {| path := [7; 9]; path_count := 2 |} ""%string 7 9 []);
    try reflexivity; discriminate.
Defined.

(** C2: when both endpoints resolve and the corridor has exactly one
    polygon, [find_path] returns the end's snapped position, and it makes
    no closest-point call: the only engine call after the two endpoint
    resolutions is the corridor query. *)
Theorem find_path_same_poly_returns_end
    (E : Engine) (self : RecastQuery) (start end_ : Point) (r : f32)
    (tr tr1 tr2 : list event) (start_p end_p : Point) (start_poly end_poly : Z)
    (res : Z) (result : RecastPathResult) (err : string) (p0 : Z) :
  find_poly E self start r tr = (Ok (start_p, start_poly), tr1) ->
  find_poly E self end_ r tr1 = (Ok (end_p, end_poly), tr2) ->
  recastc_find_path E (qptr self)
    {| start_poly := start_poly; start_pos := pos start_p;
       end_poly := end_poly; end_pos := pos end_p |} = (res, result, err) ->
  res <> 0 ->
  path_slice result = Some [p0] ->
  find_path E self start end_ r tr =
    (Ok end_p,
     tr ++ [EvNearest (qptr self) {| center := pos start; half_extents := mkF3 r r r |};
            EvNearest (qptr self) {| center := pos end_; half_extents := mkF3 r r r |};
            EvPath (qptr self)
              {| start_poly := start_poly; start_pos := pos start_p;
                 end_poly := end_poly; end_pos := pos end_p |}]) /\
  (forall qq i, In (EvClosest qq i) (snd (find_path E self start end_ r tr)) ->
                In (EvClosest qq i) tr).
Proof.
  intros H1 H2 H3 H4 H5.
  assert (T1 := find_poly_trace E self start r tr). rewrite H1 in T1. simpl in T1.
  assert (T2 := find_poly_trace E self end_ r tr1). rewrite H2 in T2. simpl in T2.
  rewrite (find_path_after_resolution _ _ _ _ _ _ _ _ _ _ _ _ H1 H2).
  cbv zeta. rewrite H3. apply Z.eqb_neq in H4. rewrite H4, H5.
  subst tr2 tr1. rewrite <- !app_assoc. simpl.
  split; [reflexivity|].
  intros qq i Hin. simpl in Hin.
  apply in_app_or in Hin as [Hin|Hin]; [exact Hin|].
  simpl in Hin. intuition discriminate.
Qed.

Lemma find_path_same_poly_returns_end_witness :
  fst (find_path (demo_engine 1 7 1 [7] 1 ""%string) demo_query
         (demo_point 1) (demo_point 2) zero32 []) = Ok (demo_point 2).
Proof.
  destruct (find_path_same_poly_returns_end
              (demo_engine 1 7 1 [7] 1 ""%string) demo_query
              (demo_point 1) (demo_point 2) zero32 []
              [EvNearest 1 {| center := pos (demo_point 1);
                              half_extents := mkF3 zero32 zero32 zero32 |}]
              [EvNearest 1 {| center := pos (demo_point 1);
                              half_extents := mkF3 zero32 zero32 zero32 |};
               EvNearest 1 {| center := pos (demo_point 2);
                              half_extents := mkF3 zero32 zero32 zero32 |}]
              (demo_point 1) (demo_point 2) 7 7 1
              {| path := [7]; path_count := 1 |} ""%string 7
              eq_refl eq_refl eq_refl ltac:(discriminate) eq_refl)
    as [Heq _].
  rewrite Heq. reflexivity.
Defined.

(** C3: when both endpoints resolve and the engine reports success with an
    empty corridor, [find_path] fails with [FindPathError "No Path"]; when
    the corridor query itself fails, it fails with [FindPathError] carrying
    the engine's diagnostic instead. *)
Theorem find_path_empty_corridor_no_path
    (E : Engine) (self : RecastQuery) (start end_ : Point) (r : f32)
    (tr tr1 tr2 : list event) (start_p end_p : Point) (start_poly end_poly : Z)
    (res : Z) (result : RecastPathResult) (err : string) :
  find_poly E self start r tr = (Ok (start_p, start_poly), tr1) ->
  find_poly E self end_ r tr1 = (Ok (end_p, end_poly), tr2) ->
  recastc_find_path E (qptr self)
    {| start_poly := start_poly; start_pos := pos start_p;
       end_poly := end_poly; end_pos := pos end_p |} = (res, result, err) ->
  (res <> 0 -> path_slice result = Some [] ->
   fst (find_path E self start end_ r tr) = Err (FindPathError "No Path"%string)) /\
  (res = 0 ->
   fst (find_path E self start end_ r tr) = Err (FindPathError err)).
Proof.
  intros H1 H2 H3.
  rewrite (find_path_after_resolution _ _ _ _ _ _ _ _ _ _ _ _ H1 H2).
  cbv zeta. rewrite H3. split.
  - intros H4 H5. apply Z.eqb_neq in H4. rewrite H4, H5. reflexivity.
  - intros H4. subst res. reflexivity.
Qed.

Lemma find_path_empty_corridor_no_path_witness :
  fst (find_path (demo_engine 1 7 1 [] 1 "engine"%string) demo_query
         (demo_point 1) (demo_point 2) zero32 []) =
    Err (FindPathError "No Path"%string).
Proof.
  destruct (find_path_empty_corridor_no_path
              (demo_engine 1 7 1 [] 1 "engine"%string) demo_query
              (demo_point 1) (demo_point 2) zero32 []
              [EvNearest 1 {| center := pos (demo_point 1);
                              half_extents := mkF3 zero32 zero32 zero32 |}]
              [EvNearest 1 {| center := pos (demo_point 1);
                              half_extents := mkF3 zero32 zero32 zero32 |};
               EvNearest 1 {| center := pos (demo_point 2);
                              half_extents := mkF3 zero32 zero32 zero32 |}]
              (demo_point 1) (demo_point 2) 7 7 1
              {| path := []; path_count := 0 |} "engine"%string
              eq_refl eq_refl eq_refl)
    as [H _].
  apply H; [discriminate|reflexivity].
Defined.

(** C6: endpoint resolution checks the engine status first
    (a failure carries the engine's diagnostic), then the polygon
    reference (a [0] reference gives [FindPointError "No poly found"]);
    only a successful call with a nonzero reference yields the snapped
    position and the reference. *)
Theorem find_poly_failure_order
    (E : Engine) (self : RecastQuery) (p : Point) (r : f32) (tr : list event)
    (res : Z) (result : RecastNearestPointResult) (err : string) :
  recastc_find_nearest_point E (qptr self)
    {| center := pos p; half_extents := mkF3 r r r |} = (res, result, err) ->
  (res = 0 -> fst (find_poly E self p r tr) = Err (FindPointError err)) /\
  (res <> 0 -> np_poly result = 0 ->
   fst (find_poly E self p r tr) = Err (FindPointError "No poly found"%string)) /\
  (res <> 0 -> np_poly result <> 0 ->
   fst (find_poly E self p r tr) = Ok (mkPoint (np_pos result), np_poly result)).
Proof.
  intros H. unfold find_poly, bind, emit. simpl. rewrite H.
  split; [|split].
  - intros ->. reflexivity.
  - intros H1 H2. apply Z.eqb_neq in H1. rewrite H1, H2. reflexivity.
  - intros H1 H2. apply Z.eqb_neq in H1. apply Z.eqb_neq in H2.
    rewrite H1, H2. reflexivity.
Qed.

Lemma find_poly_failure_order_witness :
  fst (find_poly (demo_engine 1 0 1 [] 1 ""%string) demo_query
         (demo_point 1) zero32 []) = Err (FindPointError "No poly found"%string).
Proof.
  destruct (find_poly_failure_order (demo_engine 1 0 1 [] 1 ""%string) demo_query
              (demo_point 1) zero32 [] 1
              {| np_pos := pos (demo_point 1); np_poly := 0 |} ""%string eq_refl)
    as [_ [H _]].
  apply H; [discriminate | reflexivity].
Defined.

(** C6 fails as stated: when the engine succeeds with polygon reference
    [0], the message is "No poly found", not "no polygon found". *)
Lemma find_poly_zero_ref_message :
  fst (find_poly (demo_engine 1 0 1 [] 1 ""%string) demo_query
         (demo_point 1) zero32 []) = Err (FindPointError "No poly found"%string) /\
  fst (find_poly (demo_engine 1 0 1 [] 1 ""%string) demo_query
         (demo_point 1) zero32 []) <> Err (FindPointError "no polygon found"%string).
Proof. split; [reflexivity | discriminate]. Qed.

(** C8: with a corridor of two or more polygons, a failing
    closest-point call makes [find_path] fail with a point-resolution
    error ([FindPointError]) that carries the engine's diagnostic. *)
Theorem find_path_closest_failure_is_point_error
    (E : Engine) (self : RecastQuery) (start end_ : Point) (r : f32)
    (tr tr1 tr2 : list event) (start_p end_p : Point) (start_poly end_poly : Z)
    (res : Z) (result : RecastPathResult) (err : string)
    (p0 p1 : Z) (rest : list Z)
    (cres : Z) (cresult : RecastClosestPointResult) (cerr : string) :
  find_poly E self start r tr = (Ok (start_p, start_poly), tr1) ->
  find_poly E self end_ r tr1 = (Ok (end_p, end_poly), tr2) ->
  recastc_find_path E (qptr self)
    {| start_poly := start_poly; start_pos := pos start_p;
       end_poly := end_poly; end_pos := pos end_p |} = (res, result, err) ->
  res <> 0 ->
  path_slice result = Some (p0 :: p1 :: rest) ->
  recastc_find_closest_point E (qptr self)
    {| cp_pos := pos start_p; cp_poly := p1 |} = (cres, cresult, cerr) ->
  cres = 0 ->
  fst (find_path E self start end_ r tr) = Err (FindPointError cerr).
Proof.
  intros H1 H2 H3 H4 H5 H6 H7.
  rewrite (find_path_multi_poly_projects_onto_second
             _ _ _ _ _ _ _ _ _ _ _ _ _ _ _ _ _ _ H1 H2 H3 H4 H5).
  unfold find_closest, bind, emit. simpl. rewrite H6, H7. reflexivity.
Qed.

Lemma find_path_closest_failure_is_point_error_witness :
  fst (find_path (demo_engine 1 7 1 [7; 9] 0 "diag"%string) demo_query
         (demo_point 1) (demo_point 2) zero32 []) =
    Err (FindPointError "diag"%string).
Proof.
  apply (find_path_closest_failure_is_point_error
           (demo_engine 1 7 1 [7; 9] 0 "diag"%string) demo_query
           (demo_point 1) (demo_point 2) zero32 []
           [EvNearest 1 {| center := pos (demo_point 1);
                           half_extents := mkF3 zero32 zero32 zero32 |}]
           [EvNearest 1 {| center := pos (demo_point 1);
                           half_extents := mkF3 zero32 zero32 zero32 |};
            EvNearest 1 {| center := pos (demo_point 2);
                           half_extents := mkF3 zero32 zero32 zero32 |}]
           (demo_point 1) (demo_point 2) 7 7 1
           {| path := [7; 9]; path_count := 2 |} "diag"%string 7 9 []
           0 {| cp_result_pos := pos (demo_point 1) |} "diag"%string);
    first [reflexivity | discriminate].
Defined.

(** C8 fails as stated: the error is of the point-resolution kind, not a
    [FindPathError]. *)
Lemma find_path_closest_failure_not_path_error :
  fst (find_path (demo_engine 1 7 1 [7; 9] 0 "diag"%string) demo_query
         (demo_point 1) (demo_point 2) zero32 []) = Err (FindPointError "diag"%string) /\
  forall msg,
    fst (find_path (demo_engine 1 7 1 [7; 9] 0 "diag"%string) demo_query
           (demo_point 1) (demo_point 2) zero32 []) <> Err (FindPathError msg).
Proof. split; [reflexivity | intros msg; discriminate]. Qed.

(** ** Lifecycle of the engine handle *)

Lemma frees_app l1 l2 : frees (l1 ++ l2) = frees l1 ++ frees l2.
Proof. induction l1 as [|[] l1 IH]; simpl; rewrite ?IH; reflexivity. Qed.

Lemma creates_app l1 l2 : creates (l1 ++ l2) = creates l1 ++ creates l2.
Proof. induction l1 as [|[] l1 IH]; simpl; rewrite ?IH; reflexivity. Qed.

(** A computation that neither creates nor releases an engine query. *)
Definition no_lifecycle {A} (m : M A) : Prop :=
  forall tr, frees (snd (m tr)) = frees tr /\ creates (snd (m tr)) = creates tr.

Lemma no_lifecycle_ret {A} (a : A) : no_lifecycle (ret a).
Proof. intros tr. split; reflexivity. Qed.

Lemma no_lifecycle_fail {A} e : no_lifecycle (A := A) (fail e).
Proof. intros tr. split; reflexivity. Qed.

Lemma no_lifecycle_panic {A} : no_lifecycle (A := A) panic.
Proof. intros tr. split; reflexivity. Qed.

Lemma no_lifecycle_emit ev :
  (forall p, ev <> EvFree p) -> (forall p, ev <> EvCreate p) ->
  no_lifecycle (emit ev).
Proof.
  intros Hf Hc tr. simpl. rewrite frees_app, creates_app.
  destruct ev; simpl; rewrite ?app_nil_r; try (split; reflexivity).
  - exfalso. eapply Hc. reflexivity.
  - exfalso. eapply Hf. reflexivity.
Qed.

Lemma no_lifecycle_bind {A B} (m : M A) (k : A -> M B) :
  no_lifecycle m -> (forall a, no_lifecycle (k a)) -> no_lifecycle (bind m k).
Proof.
  intros Hm Hk tr. unfold bind.
  specialize (Hm tr). destruct (m tr) as [[a|e|] tr'] eqn:Hr; simpl in *;
    destruct Hm as [<- <-]; try (split; reflexivity).
  apply Hk.
Qed.

Ltac lifecycle_step :=
  repeat first
    [ apply no_lifecycle_bind; [|intros ?]
    | apply no_lifecycle_emit; intros ? ?; discriminate
    | apply no_lifecycle_ret | apply no_lifecycle_fail | apply no_lifecycle_panic
    | match goal with
      | |- no_lifecycle (let '(_, _) := ?x in _) => destruct x as [[? ?] ?]
      | |- no_lifecycle (if ?b then _ else _) => destruct b
      end ].

Lemma find_poly_no_lifecycle E self p r : no_lifecycle (find_poly E self p r).
Proof. unfold find_poly. lifecycle_step. Qed.

Lemma find_closest_no_lifecycle E self p t : no_lifecycle (find_closest E self p t).
Proof. unfold find_closest. lifecycle_step. Qed.

Lemma find_path_no_lifecycle E self s e r : no_lifecycle (find_path E self s e r).
Proof.
  unfold find_path.
  apply no_lifecycle_bind; [apply find_poly_no_lifecycle|]. intros [sp spoly].
  apply no_lifecycle_bind; [apply find_poly_no_lifecycle|]. intros [ep epoly].
  apply no_lifecycle_bind; [apply no_lifecycle_emit; intros ? ?; discriminate|].
  intros _.
  destruct (recastc_find_path _ _ _) as [[res result] err].
  destruct (res =? 0); [apply no_lifecycle_fail|].
  destruct (path_slice result) as [[|a [|b l]]|];
    auto using no_lifecycle_fail, no_lifecycle_ret, no_lifecycle_panic,
      find_closest_no_lifecycle.
Qed.

Lemma run_queries_no_lifecycle E self qs : no_lifecycle (run_queries E self qs).
Proof.
  induction qs as [|[[s e] r] qs IH]; simpl.
  - apply no_lifecycle_ret.
  - apply no_lifecycle_bind; [apply find_path_no_lifecycle|]. intros a.
    apply no_lifecycle_bind; [exact IH|]. intros b. apply no_lifecycle_ret.
Qed.

Lemma new_from_mesh_trace E data tr o tr' :
  new_from_mesh E data tr = (o, tr') ->
  frees tr' = frees tr /\
  (forall self, o = Ok self -> creates tr' = creates tr ++ [qptr self]).
Proof.
  unfold new_from_mesh.
  destruct (compute_bb (vertices data)) as [[bmin bmax]|];
    [|intros H; inversion H; subst; split; [reflexivity|discriminate]].
  destruct (quantize_verts _ _ _) as [cu|];
    [|intros H; inversion H; subst; split; [reflexivity|discriminate]].
  destruct (recastc_create_query _ _) as [p err].
  unfold bind, emit. simpl.
  intros H. destruct p as [|a|a]; inversion H; subst; clear H;
    (split; [rewrite frees_app; simpl; rewrite app_nil_r; reflexivity|]);
    intros self Hs; inversion Hs; subst.
  rewrite creates_app. reflexivity.
Qed.

(** C9: over a whole session (construction, any number of queries run
    with [?], end of scope), a successfully constructed query's handle --
    the one the engine created -- is passed to [recastc_free_query]
    exactly once, whether zero or many queries were run and whichever way
    the queries ended; when construction fails nothing is released; and
    the released pointer is never null. *)
Theorem query_handle_released_exactly_once
    (E : Engine) (data : NavMeshData) (qs : list (Point * Point * f32)) :
  (forall self tr1, new_from_mesh E data [] = (Ok self, tr1) ->
     creates (snd (session E data qs [])) = [qptr self] /\
     frees (snd (session E data qs [])) = [qptr self]) /\
  (forall o tr1, new_from_mesh E data [] = (o, tr1) ->
     (forall self, o <> Ok self) ->
     frees (snd (session E data qs [])) = []) /\
  (forall p, In p (frees (snd (session E data qs []))) -> p <> 0).
Proof.
  assert (Hok : forall self tr1, new_from_mesh E data [] = (Ok self, tr1) ->
     creates (snd (session E data qs [])) = [qptr self] /\
     frees (snd (session E data qs [])) = [qptr self]).
  { intros self tr1 H.
    destruct (new_from_mesh_trace E data [] _ _ H) as [Hf Hc].
    specialize (Hc self eq_refl). simpl in Hf, Hc.
    unfold session. rewrite (bind_ok _ _ _ _ _ H). unfold scoped.
    assert (Hr := run_queries_no_lifecycle E self qs tr1).
    destruct (run_queries E self qs tr1) as [o' tr'] eqn:Hrun.
    simpl in Hr |- *. destruct Hr as [Hrf Hrc].
    rewrite frees_app, creates_app, Hrf, Hrc, Hf, Hc. split; reflexivity. }
  split; [exact Hok|]. split.
  - intros o tr1 H Hno.
    destruct (new_from_mesh_trace E data [] _ _ H) as [Hf _].
    unfold session, bind. rewrite H.
    destruct o as [a|e|]; [exfalso; exact (Hno a eq_refl)| |]; exact Hf.
  - intros p Hin.
    case_eq (new_from_mesh E data []). intros o tr1 H.
    destruct o as [self|e|].
    + destruct (Hok self tr1 H) as [_ Hf]. rewrite Hf in Hin.
      destruct Hin as [<-|[]]. unfold qptr. discriminate.
    + destruct (new_from_mesh_trace E data [] _ _ H) as [Hf _].
      unfold session, bind in Hin. rewrite H in Hin. simpl in Hin.
      rewrite Hf in Hin. destruct Hin.
    + destruct (new_from_mesh_trace E data [] _ _ H) as [Hf _].
      unfold session, bind in Hin. rewrite H in Hin. simpl in Hin.
      rewrite Hf in Hin. destruct Hin.
Qed.

(** ** Comparisons of binary32 values *)

Lemma pos_compare_cont_eq (a b : positive) :
  Pos.compare_cont Eq a b = Z.compare (Zpos a) (Zpos b).
Proof. reflexivity. Qed.

Lemma SFcompare_fkey (x y : f32) :
  is_nan x = false -> is_nan y = false ->
  SFcompare x y = Some (lexcmp (fkey x) (fkey y)).
Proof.
  intros Hx Hy.
  destruct x as [sx|sx| |sx mx ex]; try discriminate;
  destruct y as [sy|sy| |sy my ey]; try discriminate;
  try destruct sx; try destruct sy; simpl; try reflexivity.
  - rewrite Z.compare_opp, (Z.compare_antisym ey ex).
    destruct (ey ?= ex); reflexivity.
Qed.

Lemma lexcmp_Lt a1 a2 a3 b1 b2 b3 :
  lexcmp (a1, a2, a3) (b1, b2, b3) = Lt <->
  a1 < b1 \/ (a1 = b1 /\ (a2 < b2 \/ (a2 = b2 /\ a3 < b3))).
Proof.
  simpl. destruct (Z.compare_spec a1 b1); [|split; [lia|auto]|split; [discriminate|lia]].
  destruct (Z.compare_spec a2 b2); [|split; [lia|auto]|split; [discriminate|lia]].
  destruct (Z.compare_spec a3 b3); split; intros; try discriminate; try lia; auto.
Qed.

Lemma lexcmp_Gt a1 a2 a3 b1 b2 b3 :
  lexcmp (a1, a2, a3) (b1, b2, b3) = Gt <->
  b1 < a1 \/ (a1 = b1 /\ (b2 < a2 \/ (a2 = b2 /\ b3 < a3))).
Proof.
  simpl. destruct (Z.compare_spec a1 b1); [|split; [discriminate|lia]|split; [lia|auto]].
  destruct (Z.compare_spec a2 b2); [|split; [discriminate|lia]|split; [lia|auto]].
  destruct (Z.compare_spec a3 b3); split; intros; try discriminate; try lia; auto.
Qed.

Lemma lexcmp_le_trans a b c :
  lexcmp a b <> Gt -> lexcmp b c <> Gt -> lexcmp a c <> Gt.
Proof.
  destruct a as [[a1 a2] a3], b as [[b1 b2] b3], c as [[c1 c2] c3].
  rewrite !lexcmp_Gt. lia.
Qed.

Lemma lexcmp_lt_le a b : lexcmp a b = Lt -> lexcmp a b <> Gt.
Proof. intros ->. discriminate. Qed.

Lemma lexcmp_not_lt a b : lexcmp b a <> Lt -> lexcmp a b <> Gt.
Proof.
  destruct a as [[a1 a2] a3], b as [[b1 b2] b3].
  rewrite lexcmp_Lt, lexcmp_Gt. lia.
Qed.

Lemma lexcmp_refl a : lexcmp a a <> Gt.
Proof. destruct a as [[a1 a2] a3]. rewrite lexcmp_Gt. lia. Qed.

Lemma f32_le_lex x y :
  is_nan x = false -> is_nan y = false ->
  f32_le x y = true <-> lexcmp (fkey x) (fkey y) <> Gt.
Proof.
  intros Hx Hy. unfold f32_le, SFleb. rewrite (SFcompare_fkey x y Hx Hy).
  destruct (lexcmp _ _); split; congruence.
Qed.

Lemma f32_lt_lex x y :
  is_nan x = false -> is_nan y = false ->
  f32_lt x y = true <-> lexcmp (fkey x) (fkey y) = Lt.
Proof.
  intros Hx Hy. unfold f32_lt, SFltb. rewrite (SFcompare_fkey x y Hx Hy).
  destruct (lexcmp _ _); split; congruence.
Qed.

Lemma f32_le_trans x y z :
  is_nan x = false -> is_nan y = false -> is_nan z = false ->
  f32_le x y = true -> f32_le y z = true -> f32_le x z = true.
Proof.
  intros Hx Hy Hz. rewrite !f32_le_lex by assumption. apply lexcmp_le_trans.
Qed.

Lemma f32_le_refl x : is_nan x = false -> f32_le x x = true.
Proof. intros Hx. rewrite f32_le_lex by assumption. apply lexcmp_refl. Qed.

(** [f32::min] and [f32::max] on non-NaN arguments. *)
Lemma f32_min_spec a b :
  is_nan a = false -> is_nan b = false ->
  is_nan (f32_min a b) = false /\
  f32_le (f32_min a b) a = true /\ f32_le (f32_min a b) b = true /\
  (f32_min a b = a \/ f32_min a b = b).
Proof.
  intros Ha Hb. unfold f32_min. rewrite Ha, Hb.
  destruct (f32_lt a b) eqn:L.
  - apply f32_lt_lex in L; auto.
    rewrite !f32_le_lex by assumption.
    repeat split; auto using lexcmp_lt_le, lexcmp_refl.
  - assert (L' : lexcmp (fkey a) (fkey b) <> Lt).
    { intros L'. apply (f32_lt_lex a b Ha Hb) in L'. congruence. }
    rewrite !f32_le_lex by assumption.
    repeat split; auto using lexcmp_not_lt, lexcmp_refl.
Qed.

Lemma f32_max_spec a b :
  is_nan a = false -> is_nan b = false ->
  is_nan (f32_max a b) = false /\
  f32_le a (f32_max a b) = true /\ f32_le b (f32_max a b) = true /\
  (f32_max a b = a \/ f32_max a b = b).
Proof.
  intros Ha Hb. unfold f32_max. rewrite Ha, Hb.
  destruct (f32_lt b a) eqn:L.
  - apply f32_lt_lex in L; auto.
    rewrite !f32_le_lex by assumption.
    repeat split; auto using lexcmp_lt_le, lexcmp_refl.
  - assert (L' : lexcmp (fkey b) (fkey a) <> Lt).
    { intros L'. apply (f32_lt_lex b a Hb Ha) in L'. congruence. }
    rewrite !f32_le_lex by assumption.
    repeat split; auto using lexcmp_not_lt, lexcmp_refl.
Qed.

Lemma lexcmp_Lt_Gt a b : lexcmp a b = Lt -> lexcmp b a = Gt.
Proof.
  destruct a as [[a1 a2] a3], b as [[b1 b2] b3].
  rewrite lexcmp_Lt, lexcmp_Gt. lia.
Qed.

(** ** Digits and valid binary32 values *)

Lemma digits2_pos_size p : digits2_pos p = Pos.size p.
Proof. induction p; simpl; congruence. Qed.

Lemma pos_size_bounds p :
  2 ^ (Zpos (Pos.size p) - 1) <= Zpos p < 2 ^ Zpos (Pos.size p).
Proof.
  induction p as [p IH|p IH|]; [| |simpl; lia];
    [change (Pos.size p~1) with (Pos.succ (Pos.size p))
    |change (Pos.size p~0) with (Pos.succ (Pos.size p))];
    rewrite Pos2Z.inj_succ, Z.pow_succ_r by lia;
    replace (Z.succ (Zpos (Pos.size p)) - 1) with (Zpos (Pos.size p)) by lia;
    [change (Zpos p~1) with (2 * Zpos p + 1) | change (Zpos p~0) with (2 * Zpos p)];
    assert (2 ^ Zpos (Pos.size p) = 2 * 2 ^ (Zpos (Pos.size p) - 1))
      by (rewrite <- Z.pow_succ_r by lia; f_equal; lia);
    lia.
Qed.

Lemma f32_valid_finite s m e :
  f32_valid (S754_finite s m e) = true ->
  e <= 104 /\ Zpos m < 2 ^ 24 /\ (-149 < e -> 2 ^ 23 <= Zpos m).
Proof.
  unfold f32_valid, valid_binary, SpecFloat.bounded, canonical_mantissa, fexp, emin.
  unfold prec32, emax32. rewrite digits2_pos_size.
  intros H. apply andb_prop in H as [H1 H2].
  apply Z.eqb_eq in H1. apply Z.leb_le in H2.
  assert (B := pos_size_bounds m). set (d := Zpos (Pos.size m)) in *.
  assert (Hd : d <= 24) by lia.
  split; [lia|split].
  - eapply Z.lt_le_trans; [apply B|]. apply Z.pow_le_mono_r; lia.
  - intros He. assert (d = 24) by lia. subst d.
    replace 23 with (24 - 1) by reflexivity. rewrite <- H. apply B.
Qed.

Lemma f32_finite_le_MAX x :
  is_finite x = true -> f32_valid x = true ->
  f32_le x f32_MAX = true /\ f32_lt f32_MAX x = false /\
  f32_le f32_MIN x = true /\ f32_lt x f32_MIN = false.
Proof.
  intros Hf Hv.
  assert (Hn : is_nan x = false) by (destruct x; simpl in *; congruence).
  assert (Key : lexcmp (fkey x) (fkey f32_MAX) <> Gt /\
                lexcmp (fkey f32_MIN) (fkey x) <> Gt).
  { destruct x as [sx|sx| |sx mx ex]; try discriminate.
    - simpl. destruct sx; split; discriminate.
    - apply f32_valid_finite in Hv as (He & Hm & _).
      destruct sx; simpl fkey; rewrite !lexcmp_Gt; lia. }
  destruct Key as [K1 K2].
  assert (HM : is_nan f32_MAX = false) by reflexivity.
  assert (Hm : is_nan f32_MIN = false) by reflexivity.
  split; [apply f32_le_lex; auto|]. split.
  { destruct (f32_lt f32_MAX x) eqn:C; [|reflexivity].
    apply f32_lt_lex in C; auto. exfalso. apply K1. apply lexcmp_Lt_Gt. exact C. }
  split; [apply f32_le_lex; auto|].
  destruct (f32_lt x f32_MIN) eqn:C; [|reflexivity].
  apply f32_lt_lex in C; auto. exfalso. apply K2. apply lexcmp_Lt_Gt. exact C.
Qed.

(** The initial accumulators of [compute_bb] give way to any finite
    coordinate. *)
Lemma f32_min_MAX x :
  is_finite x = true -> f32_valid x = true -> f32_min x f32_MAX = x.
Proof.
  intros Hf Hv.
  assert (Hn : is_nan x = false) by (destruct x; simpl in *; congruence).
  destruct (f32_finite_le_MAX x Hf Hv) as (Le & _ & _ & _).
  unfold f32_min. rewrite Hn. change (is_nan f32_MAX) with false. cbv iota.
  destruct (f32_lt x f32_MAX) eqn:C; [reflexivity|].
  apply f32_le_lex in Le; [|exact Hn|reflexivity].
  assert (C' : lexcmp (fkey x) (fkey f32_MAX) <> Lt).
  { intros C'. apply (f32_lt_lex x f32_MAX Hn eq_refl) in C'. congruence. }
  destruct x as [sx|sx| |sx mx ex]; try discriminate Hf; destruct sx;
    cbn [fkey f32_MAX] in C', Le; rewrite lexcmp_Lt in C'; rewrite lexcmp_Gt in Le;
    try lia.
  assert (ex = 104) as -> by lia. assert (Hm : Zpos mx = 16777215) by lia.
  injection Hm as ->. reflexivity.
Qed.

Lemma f32_max_MIN x :
  is_finite x = true -> f32_valid x = true -> f32_max x f32_MIN = x.
Proof.
  intros Hf Hv.
  assert (Hn : is_nan x = false) by (destruct x; simpl in *; congruence).
  destruct (f32_finite_le_MAX x Hf Hv) as (_ & _ & Le & _).
  unfold f32_max. rewrite Hn. change (is_nan f32_MIN) with false. cbv iota.
  destruct (f32_lt f32_MIN x) eqn:C; [reflexivity|].
  apply f32_le_lex in Le; [|reflexivity|exact Hn].
  assert (C' : lexcmp (fkey f32_MIN) (fkey x) <> Lt).
  { intros C'. apply (f32_lt_lex f32_MIN x eq_refl Hn) in C'. congruence. }
  destruct x as [sx|sx| |sx mx ex]; try discriminate Hf; destruct sx;
    cbn [fkey f32_MIN] in C', Le; rewrite lexcmp_Lt in C'; rewrite lexcmp_Gt in Le;
    try lia.
  assert (ex = 104) as -> by lia. assert (Hm : Zpos mx = 16777215) by lia.
  injection Hm as ->. reflexivity.
Qed.

(** ** The bounding box *)

Lemma compute_bb_loop_some : forall vs bmin bmax,
  (List.length vs mod 3 = 0)%nat ->
  exists r, compute_bb_loop vs bmin bmax = Some r.
Proof.
  fix IH 1. intros [|a [|b [|c rest]]] bmin bmax H.
  - eexists. reflexivity.
  - discriminate.
  - discriminate.
  - simpl. apply IH. cbn [List.length] in H.
    replace (S (S (S (List.length rest)))) with (List.length rest + 1 * 3)%nat in H
      by lia.
    rewrite Nat.Div0.mod_add in H. exact H.
Qed.

Lemma sel_min_step k a b c m :
  sel k (mkF3 (f32_min a (x0 m)) (f32_min b (x1 m)) (f32_min c (x2 m))) =
  f32_min (sel k (mkF3 a b c)) (sel k m).
Proof. destruct k as [|[|[|k]]]; reflexivity. Qed.

Lemma sel_max_step k a b c m :
  sel k (mkF3 (f32_max a (x0 m)) (f32_max b (x1 m)) (f32_max c (x2 m))) =
  f32_max (sel k (mkF3 a b c)) (sel k m).
Proof. destruct k as [|[|[|k]]]; reflexivity. Qed.

Lemma nth_error_head3 k a b c (rest : list f32) :
  (k < 3)%nat -> nth_error (a :: b :: c :: rest) (3 * 0 + k) = Some (sel k (mkF3 a b c)).
Proof. intros Hk. destruct k as [|[|[|k]]]; try reflexivity. lia. Qed.

Lemma nth_error_tail3 {A} i k (a b c : A) rest :
  nth_error (a :: b :: c :: rest) (3 * S i + k) = nth_error rest (3 * i + k).
Proof.
  replace (3 * S i + k)%nat with (S (S (S (3 * i + k)))) by lia. reflexivity.
Qed.

Lemma nth_error_split3 i k a b c (rest : list f32) x :
  (k < 3)%nat -> nth_error (a :: b :: c :: rest) (3 * i + k) = Some x ->
  (i = 0%nat /\ x = sel k (mkF3 a b c)) \/
  (exists i', i = S i' /\ nth_error rest (3 * i' + k) = Some x).
Proof.
  intros Hk H. destruct i as [|i'].
  - left. rewrite nth_error_head3 in H by exact Hk. inversion H. auto.
  - right. exists i'. rewrite nth_error_tail3 in H. auto.
Qed.

(** Invariant of the [compute_bb] loop, per axis [k]: the running minimum
    (maximum) only decreases (increases), it is the initial value or a
    coordinate read so far, and it bounds every coordinate read so far. *)
Lemma compute_bb_loop_inv : forall vs bmin bmax rmin rmax,
  Forall (fun x => is_nan x = false) vs ->
  (forall k, is_nan (sel k bmin) = false /\ is_nan (sel k bmax) = false) ->
  compute_bb_loop vs bmin bmax = Some (rmin, rmax) ->
  forall k, (k < 3)%nat ->
    is_nan (sel k rmin) = false /\ is_nan (sel k rmax) = false /\
    f32_le (sel k rmin) (sel k bmin) = true /\
    f32_le (sel k bmax) (sel k rmax) = true /\
    (sel k rmin = sel k bmin \/ exists i, nth_error vs (3 * i + k) = Some (sel k rmin)) /\
    (sel k rmax = sel k bmax \/ exists i, nth_error vs (3 * i + k) = Some (sel k rmax)) /\
    (forall i x, nth_error vs (3 * i + k) = Some x ->
       f32_le (sel k rmin) x = true /\ f32_le x (sel k rmax) = true).
Proof.
  fix IH 1. intros [|a [|b [|c rest]]] bmin bmax rmin rmax Hvs Hb Hloop k Hk;
    try discriminate.
  - simpl in Hloop. inversion Hloop; subst. destruct (Hb k) as [Hn Hx].
    split; [|split; [|split; [|split; [|split; [|split]]]]]; auto using f32_le_refl.
    intros i x Hi. destruct (3 * i + k)%nat; discriminate.
  - inversion Hvs as [|? ? Hna Hvs1]; subst. inversion Hvs1 as [|? ? Hnb Hvs2]; subst.
    inversion Hvs2 as [|? ? Hnc Hrest]; subst.
    set (v := mkF3 a b c).
    assert (Hv : forall k, is_nan (sel k v) = false)
      by (intros [|[|[|k']]]; assumption).
    simpl in Hloop.
    match type of Hloop with compute_bb_loop rest ?m ?M = _ =>
      set (m' := m) in Hloop; set (M' := M) in Hloop end.
    specialize (IH rest m' M' rmin rmax Hrest).
    assert (Hm' : forall k, sel k m' = f32_min (sel k v) (sel k bmin))
      by (intros; apply sel_min_step).
    assert (HM' : forall k, sel k M' = f32_max (sel k v) (sel k bmax))
      by (intros; apply sel_max_step).
    assert (Hb' : forall k, is_nan (sel k m') = false /\ is_nan (sel k M') = false).
    { intros k'. rewrite Hm', HM'. destruct (Hb k') as [H1 H2].
      split; [apply (f32_min_spec _ _ (Hv k') H1) | apply (f32_max_spec _ _ (Hv k') H2)]. }
    destruct (IH Hb' Hloop k Hk) as (Nmin & Nmax & Lmin & Lmax & Amin & Amax & Bnd).
    destruct (Hb k) as [Hbn Hbx].
    destruct (f32_min_spec _ _ (Hv k) Hbn) as (Mn & Mv & Mb & Mor).
    destruct (f32_max_spec _ _ (Hv k) Hbx) as (Xn & Xv & Xb & Xor).
    rewrite <- Hm' in Mn, Mv, Mb, Mor. rewrite <- HM' in Xn, Xv, Xb, Xor.
    split; [|split; [|split; [|split; [|split; [|split]]]]]; auto.
    + exact (f32_le_trans _ (sel k m') _ Nmin Mn Hbn Lmin Mb).
    + exact (f32_le_trans _ (sel k M') _ Hbx Xn Nmax Xb Lmax).
    + destruct Amin as [E|[i Ei]].
      * rewrite E. destruct Mor as [E'|E']; rewrite E'; [right|left; reflexivity].
        exists 0%nat. apply nth_error_head3. exact Hk.
      * right. exists (S i). rewrite nth_error_tail3. exact Ei.
    + destruct Amax as [E|[i Ei]].
      * rewrite E. destruct Xor as [E'|E']; rewrite E'; [right|left; reflexivity].
        exists 0%nat. apply nth_error_head3. exact Hk.
      * right. exists (S i). rewrite nth_error_tail3. exact Ei.
    + intros i x Hi. apply nth_error_split3 in Hi as [[-> ->]|[i' [-> Hi']]]; auto.
      split.
      * exact (f32_le_trans _ (sel k m') _ Nmin Mn (Hv k) Lmin Mv).
      * exact (f32_le_trans _ (sel k M') _ (Hv k) Xn Nmax Xv Lmax).
      * exact (Bnd i' x Hi').
Qed.

(** C5: for a non-empty vertex list of length a multiple of
    3 whose coordinates are finite binary32 values (no NaN, no infinity),
    [compute_bb] returns [(bmin, bmax)] such that, on every axis, every
    vertex lies within [[bmin, bmax]] and both bounds are coordinates of
    some vertex. *)
Theorem compute_bb_bounds_attained (vs : list f32) :
  vs <> [] -> (List.length vs mod 3 = 0)%nat ->
  Forall (fun x => is_finite x = true /\ f32_valid x = true) vs ->
  exists bmin bmax, compute_bb vs = Some (bmin, bmax) /\
  forall k, (k < 3)%nat ->
    (forall i x, nth_error vs (3 * i + k) = Some x ->
       f32_le (sel k bmin) x = true /\ f32_le x (sel k bmax) = true) /\
    (exists i, nth_error vs (3 * i + k) = Some (sel k bmin)) /\
    (exists i, nth_error vs (3 * i + k) = Some (sel k bmax)).
Proof.
  intros Hne Hlen Hfin.
  assert (Hnn : Forall (fun x => is_nan x = false) vs).
  { eapply Forall_impl; [|exact Hfin]. intros x [Hx _].
    destruct x; simpl in *; congruence. }
  destruct vs as [|a [|b [|c rest]]]; try discriminate; [congruence|].
  inversion Hfin as [|? ? [Fa Va] Hf1]; subst.
  inversion Hf1 as [|? ? [Fb Vb] Hf2]; subst.
  inversion Hf2 as [|? ? [Fc Vc] Hf3]; subst.
  inversion Hnn as [|? ? Na Hn1]; subst.
  inversion Hn1 as [|? ? Nb Hn2]; subst.
  inversion Hn2 as [|? ? Nc Hrest]; subst.
  set (v := mkF3 a b c).
  assert (Hv : forall k, is_nan (sel k v) = false)
    by (intros [|[|[|k']]]; assumption).
  assert (Step : compute_bb (a :: b :: c :: rest) = compute_bb_loop rest v v).
  { unfold compute_bb. cbn [compute_bb_loop x0 x1 x2].
    rewrite (f32_min_MAX a), (f32_min_MAX b), (f32_min_MAX c),
      (f32_max_MIN a), (f32_max_MIN b), (f32_max_MIN c) by assumption.
    reflexivity. }
  assert (Hl : (List.length rest mod 3 = 0)%nat).
  { cbn [List.length] in Hlen.
    replace (S (S (S (List.length rest)))) with (List.length rest + 1 * 3)%nat in Hlen
      by lia.
    rewrite Nat.Div0.mod_add in Hlen. exact Hlen. }
  destruct (compute_bb_loop_some rest v v Hl) as [[rmin rmax] Hloop].
  exists rmin, rmax. rewrite Step. split; [exact Hloop|].
  intros k Hk.
  destruct (compute_bb_loop_inv rest v v rmin rmax Hrest
              (fun k => conj (Hv k) (Hv k)) Hloop k Hk)
    as (Nmin & Nmax & Lmin & Lmax & Amin & Amax & Bnd).
  split; [|split].
  - intros i x Hi.
    destruct (nth_error_split3 _ _ _ _ _ _ _ Hk Hi) as [[-> ->]|[i' [-> Hi']]].
    + split; assumption.
    + exact (Bnd i' x Hi').
  - destruct Amin as [E|[i Ei]].
    + exists 0%nat. rewrite E. apply nth_error_head3. exact Hk.
    + exists (S i). rewrite nth_error_tail3. exact Ei.
  - destruct Amax as [E|[i Ei]].
    + exists 0%nat. rewrite E. apply nth_error_head3. exact Hk.
    + exists (S i). rewrite nth_error_tail3. exact Ei.
Qed.

Lemma compute_bb_bounds_attained_witness :
  let vs := [one32; zero32; S754_finite false 8388608 (-22);
             zero32; one32; one32] in
  exists bmin bmax,
    compute_bb vs = Some (bmin, bmax) /\
    sel 0 bmin = zero32 /\ sel 0 bmax = one32 /\
    sel 1 bmin = zero32 /\ sel 1 bmax = one32 /\
    (exists i, nth_error vs (3 * i + 0) = Some (sel 0 bmin)) /\
    (exists i, nth_error vs (3 * i + 1) = Some (sel 1 bmax)).
Proof.
  intros vs.
  destruct (compute_bb_bounds_attained vs) as (bmin & bmax & H & K).
  - discriminate.
  - reflexivity.
  - repeat constructor.
  - exists bmin, bmax.
    destruct (K 0%nat ltac:(lia)) as (_ & A0 & _).
    destruct (K 1%nat ltac:(lia)) as (_ & _ & A1).
    pose proof H as H'. vm_compute in H'. injection H' as E1 E2. subst bmin bmax.
    refine (conj H (conj eq_refl (conj eq_refl (conj eq_refl (conj eq_refl (conj A0 A1)))))).
Defined.

(** C5 fails as stated for non-finite coordinates: with a [+inf]
    coordinate, the running minimum starts at [f32::MAX] and stays there,
    so [bmin] is not the coordinate of any vertex. *)
Lemma compute_bb_infinite_coordinate :
  compute_bb [S754_infinity false; zero32; zero32] =
    Some (mkF3 f32_MAX zero32 zero32, mkF3 (S754_infinity false) zero32 zero32) /\
  ~ (exists i, nth_error [S754_infinity false; zero32; zero32] (3 * i + 0) =
               Some (x0 (mkF3 f32_MAX zero32 zero32))).
Proof.
  split; [reflexivity|].
  intros [i H]. destruct i as [|i]; [discriminate|].
  rewrite nth_error_tail3 in H. destruct (3 * i + 0)%nat; discriminate.
Qed.

(** ** Rounding of binary32 operations *)

Section RealFacts.
Local Open Scope R_scope.

Lemma bpow_pos e : 0 < bpow e.
Proof. apply powerRZ_lt. lra. Qed.

Lemma bpow_add a b : bpow (a + b) = bpow a * bpow b.
Proof. apply powerRZ_add. lra. Qed.

Lemma bpow_IZR e : (0 <= e)%Z -> bpow e = IZR (2 ^ e).
Proof.
  intros He. destruct e as [|p|p]; [reflexivity| |lia].
  unfold bpow. rewrite <- Zpower_pos_powerRZ. reflexivity.
Qed.

Lemma bpow_ge1 e : (0 <= e)%Z -> 1 <= bpow e.
Proof.
  intros He. rewrite bpow_IZR by exact He. apply IZR_le.
  assert (0 < 2 ^ e)%Z by (apply Z.pow_pos_nonneg; lia). lia.
Qed.

Lemma bpow_le a b : (a <= b)%Z -> bpow a <= bpow b.
Proof.
  intros H. replace b with (a + (b - a))%Z by lia. rewrite bpow_add.
  pose proof (bpow_pos a). pose proof (bpow_ge1 (b - a) ltac:(lia)). nra.
Qed.

Lemma bpow_1 : bpow 1 = 2.
Proof. unfold bpow. simpl. ring. Qed.

Lemma bpow_lt a b : (a < b)%Z -> bpow a < bpow b.
Proof.
  intros H. replace b with (a + 1 + (b - a - 1))%Z by lia.
  rewrite !bpow_add. pose proof (bpow_pos a).
  pose proof (bpow_ge1 (b - a - 1) ltac:(lia)).
  rewrite bpow_1. nra.
Qed.

Lemma bpow_lt_inv a b : bpow a < bpow b -> (a < b)%Z.
Proof.
  intros H. destruct (Z_lt_le_dec a b) as [|Hle]; [assumption|].
  apply bpow_le in Hle. lra.
Qed.

Lemma bpow_le_inv a b : bpow a <= bpow b -> (a <= b)%Z.
Proof.
  intros H. destruct (Z_le_gt_dec a b) as [|Hgt]; [assumption|].
  assert (b < a)%Z as Hlt by lia. apply bpow_lt in Hlt. lra.
Qed.

Lemma bpow_succ e : bpow (e + 1) = 2 * bpow e.
Proof. rewrite bpow_add, bpow_1. ring. Qed.

Lemma mag_rel_unique x k1 k2 : mag_rel x k1 -> mag_rel x k2 -> k1 = k2.
Proof.
  unfold mag_rel. intros [A1 B1] [A2 B2].
  assert (k1 - 1 < k2)%Z by (apply bpow_lt_inv; lra).
  assert (k2 - 1 < k1)%Z by (apply bpow_lt_inv; lra). lia.
Qed.

Lemma mag_rel_le x y kx ky : 0 < x <= y -> mag_rel x kx -> mag_rel y ky -> (kx <= ky)%Z.
Proof.
  unfold mag_rel. intros Hxy [A1 B1] [A2 B2].
  assert (kx - 1 < ky)%Z by (apply bpow_lt_inv; lra). lia.
Qed.

Lemma pos_bounds p :
  bpow (Zpos (Pos.size p) - 1) <= IZR (Zpos p) < bpow (Zpos (Pos.size p)).
Proof.
  pose proof (pos_size_bounds p) as [A B].
  rewrite !bpow_IZR by lia. split; apply IZR_le || apply IZR_lt; lia.
Qed.

Lemma mag_rel_pos p e : mag_rel (IZR (Zpos p) * bpow e) (Zpos (Pos.size p) + e).
Proof.
  unfold mag_rel. pose proof (pos_bounds p) as [A B]. pose proof (bpow_pos e).
  replace (Zpos (Pos.size p) + e - 1)%Z with ((Zpos (Pos.size p) - 1) + e)%Z by lia.
  rewrite !bpow_add. split; nra.
Qed.

Lemma fexp32_mono a b : (a <= b)%Z -> (fexp32 a <= fexp32 b)%Z.
Proof. unfold fexp32, fexp, emin, prec32, emax32. lia. Qed.

Lemma fexp32_eq e : fexp32 e = Z.max (e - 24) (-149).
Proof. reflexivity. Qed.

End RealFacts.

Section Locations.
Local Open Scope R_scope.

Lemma div_bpow_nonneg u e : 0 <= u -> 0 <= u / bpow e.
Proof.
  intros H. unfold Rdiv. apply Rmult_le_pos; [exact H|].
  left. apply Rinv_0_lt_compat, bpow_pos.
Qed.

Lemma loc_rel_nonneg u m l : 0 <= u -> loc_rel u m l -> (0 <= m)%Z.
Proof.
  intros Hu [[A B] _]. assert (-1 < m)%Z; [|lia].
  apply lt_IZR. lra.
Qed.

Lemma record_of_loc_inv m l :
  shr_m (shr_record_of_loc m l) = m /\
  loc_of_shr_record (shr_record_of_loc m l) = l.
Proof. destruct l as [|[| |]]; split; reflexivity. Qed.

Lemma shr_1_inv u rec : 0 <= u -> shr_inv u rec -> shr_inv (u / 2) (shr_1 rec).
Proof.
  intros Hu H. pose proof (loc_rel_nonneg _ _ _ Hu H) as Hm.
  destruct rec as [m r s]. unfold shr_inv, loc_rel in *. simpl in *.
  destruct m as [|p|p]; [| |lia];
  [|destruct p as [p|p|]];
  [| change (Zpos p~1) with (2 * Zpos p + 1)%Z in H;
     rewrite plus_IZR, mult_IZR in H
   | change (Zpos p~0) with (2 * Zpos p)%Z in H; rewrite mult_IZR in H
   | ];
  destruct r, s; simpl in *;
  destruct H as [[A B] C]; simpl in C;
  repeat match goal with Hc : _ /\ _ |- _ => destruct Hc end;
  repeat split; try intro; lra.
Qed.

Lemma iter_shr_1_inv : forall p rec u, 0 <= u -> shr_inv u rec ->
  shr_inv (u / bpow (Zpos p)) (SpecFloat.iter_pos shr_1 p rec).
Proof.
  induction p as [p IH|p IH|]; intros rec u Hu H; cbn [SpecFloat.iter_pos].
  - replace (u / bpow (Zpos p~1)) with (u / 2 / bpow (Zpos p) / bpow (Zpos p)).
    + apply IH; [apply div_bpow_nonneg; lra|].
      apply IH; [apply Rmult_le_pos; lra|]. apply shr_1_inv; assumption.
    + replace (Zpos p~1) with (Zpos p + Zpos p + 1)%Z by lia. rewrite !bpow_add, bpow_1.
      pose proof (bpow_pos (Zpos p)). field. lra.
  - replace (u / bpow (Zpos p~0)) with (u / bpow (Zpos p) / bpow (Zpos p)).
    + apply IH; [apply div_bpow_nonneg; lra|]. apply IH; assumption.
    + replace (Zpos p~0) with (Zpos p + Zpos p)%Z by lia. rewrite !bpow_add.
      pose proof (bpow_pos (Zpos p)). field. lra.
  - rewrite bpow_1. apply shr_1_inv; assumption.
Qed.

Lemma rne_spec u m l : loc_rel u m l -> rne_rel u (round_nearest_even m l).
Proof.
  unfold loc_rel, rne_rel. intros [[A B] C].
  destruct l as [|[| |]]; simpl.
  - subst u. rewrite Rminus_diag, Rabs_R0. split; [lra|intro; lra].
  - destruct C as [C1 C2]. case_eq (Z.even m); intros He.
    + split; [rewrite Rabs_minus_sym, Rabs_pos_eq; lra|intros; exact He].
    + rewrite plus_IZR. split; [rewrite Rabs_pos_eq; lra|].
      intros _. rewrite Z.even_add, He. reflexivity.
  - destruct C as [C1 C2].
    split; [rewrite Rabs_minus_sym, Rabs_pos_eq; lra|].
    rewrite Rabs_minus_sym, Rabs_pos_eq by lra. intro; lra.
  - destruct C as [C1 C2]. rewrite plus_IZR.
    split; [rewrite Rabs_pos_eq; lra|].
    rewrite Rabs_pos_eq by lra. intro; lra.
Qed.

Lemma rne_bounds u N : rne_rel u N -> u - / 2 <= IZR N <= u + / 2.
Proof.
  intros [H _]. unfold Rabs in H. destruct (Rcase_abs _); lra.
Qed.

Lemma rne_le_int u N K : rne_rel u N -> u <= IZR K -> (N <= K)%Z.
Proof.
  intros H HK. apply rne_bounds in H.
  assert (N < K + 1)%Z; [|lia]. apply lt_IZR. rewrite plus_IZR. lra.
Qed.

Lemma rne_ge_int u N K : rne_rel u N -> IZR K <= u -> (K <= N)%Z.
Proof.
  intros H HK. apply rne_bounds in H.
  assert (K - 1 < N)%Z; [|lia]. apply lt_IZR. rewrite minus_IZR. lra.
Qed.

Lemma rne_mono u v N M : u <= v -> rne_rel u N -> rne_rel v M -> (N <= M)%Z.
Proof.
  intros Huv HN HM.
  destruct (Z_le_gt_dec N M) as [|Hgt]; [assumption|exfalso].
  pose proof (rne_bounds _ _ HN). pose proof (rne_bounds _ _ HM).
  assert (HNM : IZR M + 1 <= IZR N) by (rewrite <- plus_IZR; apply IZR_le; lia).
  assert (N = M + 1)%Z.
  { assert (N < M + 2)%Z; [|lia]. apply lt_IZR. rewrite plus_IZR. lra. }
  destruct HN as [_ EN]. destruct HM as [_ EM].
  assert (E1 : Z.even N = true) by (apply EN; rewrite Rabs_pos_eq; lra).
  assert (E2 : Z.even M = true)
    by (apply EM; rewrite Rabs_minus_sym, Rabs_pos_eq; lra).
  subst N. rewrite Z.even_add, E2 in E1. discriminate.
Qed.

End Locations.

Lemma size_of_bounds p d :
  1 <= d -> 2 ^ (d - 1) <= Zpos p < 2 ^ d -> Zpos (Pos.size p) = d.
Proof.
  intros Hd [A B]. pose proof (pos_size_bounds p) as [C D].
  assert (Zpos (Pos.size p) - 1 < d).
  { apply (Z.pow_lt_mono_r_iff 2); lia. }
  assert (d - 1 < Zpos (Pos.size p)).
  { apply (Z.pow_lt_mono_r_iff 2); lia. }
  lia.
Qed.

Lemma size_le p d : 0 <= d -> Zpos p < 2 ^ d -> Zpos (Pos.size p) <= d.
Proof.
  intros Hd B. pose proof (pos_size_bounds p) as [C D].
  assert (Zpos (Pos.size p) - 1 < d).
  { apply (Z.pow_lt_mono_r_iff 2); lia. }
  lia.
Qed.

Lemma Zdigits2_pos p : Zdigits2 (Zpos p) = Zpos (Pos.size p).
Proof. simpl. rewrite digits2_pos_size. reflexivity. Qed.

Section Rounding.
Local Open Scope R_scope.

Lemma div_bpow_le a x E : bpow a <= x -> bpow (a - E) <= x / bpow E.
Proof.
  intros H. pose proof (bpow_pos E).
  assert (bpow a = bpow (a - E) * bpow E) by (rewrite <- bpow_add; f_equal; lia).
  assert (x / bpow E * bpow E = x) by (field; lra). nra.
Qed.

Lemma div_bpow_lt a x E : x < bpow a -> x / bpow E < bpow (a - E).
Proof.
  intros H. pose proof (bpow_pos E).
  assert (bpow a = bpow (a - E) * bpow E) by (rewrite <- bpow_add; f_equal; lia).
  assert (x / bpow E * bpow E = x) by (field; lra). nra.
Qed.

Lemma mult_div_bpow x E : x / bpow E * bpow E = x.
Proof. pose proof (bpow_pos E). field. lra. Qed.

(** The first shift of [binary_round_aux] lands on the canonical
    exponent [fexp32 k] and keeps the location of [x]. *)
Lemma shr_fexp_spec x k mx ex lx :
  0 < x -> mag_rel x k -> (ex <= fexp32 k)%Z -> loc_rel (x / bpow ex) mx lx ->
  snd (shr_fexp prec32 emax32 mx ex lx) = fexp32 k /\
  shr_inv (x / bpow (fexp32 k)) (fst (shr_fexp prec32 emax32 mx ex lx)).
Proof.
  intros Hx Hk He Hl.
  assert (Hu : 0 <= x / bpow ex) by (apply div_bpow_nonneg; lra).
  pose proof (loc_rel_nonneg _ _ _ Hu Hl) as Hm.
  assert (Hd : fexp32 (Zdigits2 mx + ex) = fexp32 k).
  { destruct mx as [|p|p]; [|simpl Zdigits2|lia].
    - destruct Hl as [[A B] _]. simpl in B.
      assert (x < bpow ex).
      { pose proof (Rmult_lt_compat_r (bpow ex) _ _ (bpow_pos ex) B) as B'.
        rewrite mult_div_bpow in B'. lra. }
      destruct Hk as [Hk1 _].
      assert (k - 1 < ex)%Z by (apply bpow_lt_inv; lra).
      change (Zdigits2 0) with 0%Z. rewrite !fexp32_eq in *. lia.
    - rewrite digits2_pos_size. f_equal. apply (mag_rel_unique x); [|exact Hk].
      destruct Hl as [[A B] _]. pose proof (bpow_pos ex).
      pose proof (mult_div_bpow x ex).
      pose proof (pos_bounds p) as [C D]. unfold mag_rel.
      assert (Hp1 : IZR (Zpos p) + 1 <= bpow (Zpos (Pos.size p))).
      { rewrite bpow_IZR by lia. rewrite <- plus_IZR. apply IZR_le.
        pose proof (pos_size_bounds p). lia. }
      replace (Zpos (Pos.size p) + ex - 1)%Z with (Zpos (Pos.size p) - 1 + ex)%Z by lia.
      rewrite !bpow_add. split; nra. }
  unfold shr_fexp. change (fexp prec32 emax32) with fexp32. rewrite Hd.
  destruct (record_of_loc_inv mx lx) as [R1 R2].
  unfold shr. destruct (fexp32 k - ex)%Z as [|n|n] eqn:En.
  - simpl. assert (ex = fexp32 k) by lia. subst ex. split; [reflexivity|].
    unfold shr_inv. rewrite R1, R2. exact Hl.
  - simpl. split; [lia|].
    replace (fexp32 k) with (ex + Zpos n)%Z by lia.
    rewrite bpow_add.
    replace (x / (bpow ex * bpow (Zpos n))) with (x / bpow ex / bpow (Zpos n))
      by (pose proof (bpow_pos ex); pose proof (bpow_pos (Zpos n)); field; lra).
    apply iter_shr_1_inv; [exact Hu|]. unfold shr_inv. rewrite R1, R2. exact Hl.
  - lia.
Qed.

Lemma round_val_final sx m e :
  (0 <= m)%Z ->
  ((e <= emax32 - prec32)%Z -> IZR m * bpow e < bpow emax32) ->
  ((emax32 - prec32 < e)%Z -> IZR m * bpow e >= bpow emax32) ->
  round_val sx (IZR m * bpow e)
    (match m with
     | Z0 => S754_zero sx
     | Zpos m => if Z.leb e (emax32 - prec32) then S754_finite sx m e
                 else S754_infinity sx
     | Zneg _ => S754_nan
     end).
Proof.
  intros Hm Hfin Hinf. unfold round_val.
  destruct m as [|p|p]; [|case_eq (Z.leb e (emax32 - prec32)); intros Hle|lia].
  - right. rewrite Rmult_0_l. split; [apply bpow_pos|].
    destruct sx; simpl; rewrite ?Ropp_0; reflexivity.
  - right. apply Z.leb_le in Hle. split; [exact (Hfin Hle)|].
    destruct sx; simpl; [|reflexivity].
    change (Zneg p) with (- Zpos p)%Z. rewrite opp_IZR. f_equal. ring.
  - left. apply Z.leb_gt in Hle. split; [exact (Hinf Hle)|].
    destruct sx; reflexivity.
Qed.

(** The second shift of [binary_round_aux] only renormalises a rounded
    mantissa [2^24]; the overflow test on the exponent is [V >= 2^128]. *)
Lemma second_shift x k N :
  0 < x -> mag_rel x k -> rne_rel (x / bpow (fexp32 k)) N ->
  let mrs := fst (shr_fexp prec32 emax32 N (fexp32 k) loc_Exact) in
  let e := snd (shr_fexp prec32 emax32 N (fexp32 k) loc_Exact) in
  (0 <= shr_m mrs)%Z /\ IZR (shr_m mrs) * bpow e = IZR N * bpow (fexp32 k) /\
  ((e <= emax32 - prec32)%Z -> IZR (shr_m mrs) * bpow e < bpow emax32) /\
  ((emax32 - prec32 < e)%Z -> IZR (shr_m mrs) * bpow e >= bpow emax32).
Proof.
  intros Hx Hk HN. cbv zeta.
  set (E := fexp32 k).
  pose proof (div_bpow_le _ _ E (proj1 Hk)) as L.
  pose proof (div_bpow_lt _ _ E (proj2 Hk)) as U.
  unfold shr_fexp. change (fexp prec32 emax32) with fexp32. simpl shr_record_of_loc.
  change (emax32 - prec32)%Z with 104%Z. unfold emax32.
  destruct (Z_le_gt_dec (-149) (k - 24)) as [HA|HB].
  - (* normal range: E = k - 24 *)
    assert (HE : E = (k - 24)%Z) by (unfold E; rewrite fexp32_eq; lia).
    assert (HN' : rne_rel (x / bpow (k - 24)) N) by (rewrite <- HE; exact HN).
    rewrite HE in L, U. replace (k - 1 - (k - 24))%Z with 23%Z in L by lia.
    replace (k - (k - 24))%Z with 24%Z in U by lia.
    rewrite (bpow_IZR 23) in L by lia. rewrite (bpow_IZR 24) in U by lia.
    assert (N1 : (2 ^ 23 <= N)%Z) by (eapply rne_ge_int; [exact HN'|exact L]).
    assert (N2 : (N <= 2 ^ 24)%Z) by (eapply rne_le_int; [exact HN'|lra]).
    destruct N as [|p|p]; [lia| |lia].
    destruct (Z.eq_dec (Zpos p) (2 ^ 24)) as [Hp|Hp].
    + (* the mantissa rounded up to 2^24 *)
      assert (Hs : Zpos (Pos.size p) = 25%Z)
        by (apply size_of_bounds; [lia|rewrite Hp; lia]).
      rewrite Zdigits2_pos, Hs.
      replace (fexp32 (25 + E) - E)%Z with 1%Z by (rewrite !fexp32_eq; lia).
      assert (p = 16777216%positive) by lia. subst p.
      cbn [shr fst snd SpecFloat.iter_pos shr_1 shr_m].
      assert (B : IZR 8388608 * bpow (E + 1) = IZR 16777216 * bpow E)
        by (rewrite bpow_succ; replace 16777216%Z with (2 * 8388608)%Z by lia;
            rewrite mult_IZR; ring).
      rewrite B. split; [lia|split; [reflexivity|]].
      assert (C : IZR 16777216 * bpow E = bpow (E + 24)).
      { rewrite bpow_add, (bpow_IZR 24) by lia. rewrite Rmult_comm. reflexivity. }
      rewrite C. split; intros H.
      * apply bpow_lt. lia.
      * apply Rle_ge, bpow_le. lia.
    + assert (Hs : Zpos (Pos.size p) = 24%Z) by (apply size_of_bounds; lia).
      rewrite Zdigits2_pos, Hs.
      replace (fexp32 (24 + E) - E)%Z with 0%Z by (rewrite !fexp32_eq; lia).
      cbn [shr fst snd shr_m]. split; [lia|split; [reflexivity|]].
      pose proof (bpow_pos E).
      split; intros Hc.
      * assert (IZR (Zpos p) < bpow 24) by (rewrite bpow_IZR by lia; apply IZR_lt; lia).
        assert (bpow (24 + E) <= bpow 128) by (apply bpow_le; lia).
        rewrite bpow_add in *. nra.
      * assert (bpow 23 <= IZR (Zpos p)) by (rewrite bpow_IZR by lia; apply IZR_le; lia).
        assert (bpow 128 <= bpow (23 + E)) by (apply bpow_le; lia).
        rewrite bpow_add in *. nra.
  - (* subnormal range: E = -149 *)
    assert (HE : E = (-149)%Z) by (unfold E; rewrite fexp32_eq; lia).
    assert (U' : x / bpow E < bpow 23).
    { eapply Rlt_le_trans; [exact U|]. apply bpow_le. lia. }
    rewrite (bpow_IZR 23) in U' by lia.
    assert (HN' : rne_rel (x / bpow E) N) by exact HN.
    assert (N1 : (0 <= N)%Z).
    { eapply rne_ge_int; [exact HN'|]. apply div_bpow_nonneg. lra. }
    assert (N2 : (N <= 2 ^ 23)%Z) by (eapply rne_le_int; [exact HN'|lra]).
    assert (Hsh : (fexp32 (Zdigits2 N + E) - E)%Z = 0%Z).
    { destruct N as [|p|p]; [rewrite HE; reflexivity| |lia].
      rewrite Zdigits2_pos. assert (Zpos (Pos.size p) <= 24)%Z by (apply size_le; lia).
      rewrite fexp32_eq. lia. }
    rewrite Hsh. cbn [shr fst snd shr_m]. split; [exact N1|split; [reflexivity|]].
    split; intros Hc; [|lia].
    assert (IZR N <= bpow 23) by (rewrite bpow_IZR by lia; apply IZR_le; lia).
    pose proof (bpow_pos E).
    assert (bpow (23 + E) < bpow 128) by (apply bpow_lt; lia).
    rewrite bpow_add in *. nra.
Qed.

(** [binary_round_aux] rounds a positive [x], given by its integer part
    [mx] and location [lx] at an exponent [ex] at most the canonical
    one, to nearest-even at the canonical exponent. *)
Lemma binary_round_aux_spec sx mx ex lx x k :
  0 < x -> mag_rel x k -> (ex <= fexp32 k)%Z -> loc_rel (x / bpow ex) mx lx ->
  round_pos sx x (binary_round_aux prec32 emax32 sx mx ex lx).
Proof.
  intros Hx Hk He Hl.
  destruct (shr_fexp_spec x k mx ex lx Hx Hk He Hl) as [E1 I1].
  unfold binary_round_aux.
  destruct (shr_fexp prec32 emax32 mx ex lx) as [mrs e'] eqn:Es. simpl in E1, I1.
  subst e'.
  set (N := round_nearest_even (shr_m mrs) (loc_of_shr_record mrs)).
  assert (HN : rne_rel (x / bpow (fexp32 k)) N) by (apply rne_spec; exact I1).
  pose proof (second_shift x k N Hx Hk HN) as S. cbv zeta in S.
  destruct (shr_fexp prec32 emax32 N (fexp32 k) loc_Exact) as [mrs2 e2]. simpl in S.
  destruct S as (S1 & S2 & S3 & S4).
  exists k, N. split; [exact Hk|split; [exact HN|]].
  rewrite <- S2. apply round_val_final; assumption.
Qed.

End Rounding.

Lemma f32_valid_canonical s m e :
  f32_valid (S754_finite s m e) = true -> fexp32 (Zpos (Pos.size m) + e) = e.
Proof.
  unfold f32_valid, valid_binary, SpecFloat.bounded, canonical_mantissa.
  intros H. apply andb_prop in H as [H1 _].
  apply Z.eqb_eq in H1. rewrite digits2_pos_size in H1. exact H1.
Qed.

Section Monotone.
Local Open Scope R_scope.

Lemma xr_le_trans a b c : xr_le a b -> xr_le b c -> xr_le a c.
Proof.
  intros H1 H2. destruct a, b, c; simpl in *; try tauto; lra.
Qed.

Lemma rne_nonneg u N : 0 <= u -> rne_rel u N -> (0 <= N)%Z.
Proof. intros Hu HN. eapply rne_ge_int; [exact HN|]. exact Hu. Qed.

(** Rounding a positive real is monotone in the real. *)
Lemma round_mag_mono x y kx ky Nx Ny :
  0 < x <= y -> mag_rel x kx -> mag_rel y ky ->
  rne_rel (x / bpow (fexp32 kx)) Nx -> rne_rel (y / bpow (fexp32 ky)) Ny ->
  IZR Nx * bpow (fexp32 kx) <= IZR Ny * bpow (fexp32 ky).
Proof.
  intros Hxy Hx Hy HNx HNy.
  pose proof (mag_rel_le _ _ _ _ Hxy Hx Hy) as Hk.
  pose proof (fexp32_mono _ _ Hk) as HE.
  destruct (Z.eq_dec (fexp32 kx) (fexp32 ky)) as [Heq|Hne].
  - rewrite Heq in *.
    assert (x / bpow (fexp32 ky) <= y / bpow (fexp32 ky)).
    { unfold Rdiv. apply Rmult_le_compat_r; [|lra].
      left. apply Rinv_0_lt_compat, bpow_pos. }
    pose proof (rne_mono _ _ _ _ H HNx HNy) as HN.
    apply Rmult_le_compat_r; [left; apply bpow_pos|]. apply IZR_le. exact HN.
  - assert (Ey : fexp32 ky = (ky - 24)%Z).
    { revert HE Hne. rewrite !fexp32_eq. lia. }
    assert (Hlt : (kx < ky)%Z)
      by (destruct (Z.eq_dec kx ky) as [Hq|]; [subst; congruence|lia]).
    set (Ex := fexp32 kx) in *.
    assert (HK : (0 <= ky - 1 - Ex)%Z) by lia.
    (* Nx * 2^Ex <= 2^(ky-1) <= Ny * 2^Ey *)
    assert (A : (Nx <= 2 ^ (ky - 1 - Ex))%Z).
    { eapply rne_le_int; [exact HNx|]. rewrite <- bpow_IZR by exact HK.
      left. apply div_bpow_lt. destruct Hx as [_ Hx].
      eapply Rlt_le_trans; [exact Hx|]. apply bpow_le. lia. }
    assert (B : (2 ^ 23 <= Ny)%Z).
    { eapply rne_ge_int; [exact HNy|]. rewrite <- bpow_IZR by lia.
      rewrite Ey. replace 23%Z with (ky - 1 - (ky - 24))%Z by lia.
      apply div_bpow_le. exact (proj1 Hy). }
    apply IZR_le in A. apply IZR_le in B.
    rewrite <- bpow_IZR in A, B by lia.
    pose proof (bpow_pos Ex). pose proof (bpow_pos (fexp32 ky)).
    assert (C1 : IZR Nx * bpow Ex <= bpow (ky - 1 - Ex) * bpow Ex) by nra.
    assert (C2 : bpow 23 * bpow (fexp32 ky) <= IZR Ny * bpow (fexp32 ky)) by nra.
    rewrite <- bpow_add in C1, C2. rewrite Ey in C2.
    replace (ky - 1 - Ex + Ex)%Z with (ky - 1)%Z in C1 by lia.
    replace (23 + (ky - 24))%Z with (ky - 1)%Z in C2 by lia.
    rewrite Ey. lra.
Qed.

Lemma round_val_not_nan sx V r : round_val sx V r -> f32_ext r <> XNaN.
Proof. intros [[_ H]|[_ H]]; rewrite H; destruct sx; discriminate. Qed.

Lemma round_val_mono_pos V1 V2 r1 r2 :
  V1 <= V2 -> round_val false V1 r1 -> round_val false V2 r2 -> f32_ext_le r1 r2.
Proof.
  unfold f32_ext_le. intros HV [[A1 B1]|[A1 B1]] [[A2 B2]|[A2 B2]];
    rewrite B1, B2; simpl; try exact I; try lra.
Qed.

Lemma round_val_mono_neg V1 V2 r1 r2 :
  V2 <= V1 -> round_val true V1 r1 -> round_val true V2 r2 -> f32_ext_le r1 r2.
Proof.
  unfold f32_ext_le. intros HV [[A1 B1]|[A1 B1]] [[A2 B2]|[A2 B2]];
    rewrite B1, B2; simpl; try exact I; try lra.
Qed.

Lemma round_pos_sign_pos x r s :
  0 < x -> round_pos false x r -> f32_ext_le (S754_zero s) r.
Proof.
  intros Hx (k & N & Hk & HN & HV).
  assert (0 <= N)%Z by (apply (rne_nonneg (x / bpow (fexp32 k))); [apply div_bpow_nonneg; lra|exact HN]).
  assert (0 <= IZR N * bpow (fexp32 k))
    by (apply Rmult_le_pos; [apply IZR_le; lia|left; apply bpow_pos]).
  unfold f32_ext_le. destruct HV as [[_ B]|[_ B]]; rewrite B; simpl; lra.
Qed.

Lemma round_pos_sign_neg x r s :
  0 < x -> round_pos true x r -> f32_ext_le r (S754_zero s).
Proof.
  intros Hx (k & N & Hk & HN & HV).
  assert (0 <= N)%Z by (apply (rne_nonneg (x / bpow (fexp32 k))); [apply div_bpow_nonneg; lra|exact HN]).
  assert (0 <= IZR N * bpow (fexp32 k))
    by (apply Rmult_le_pos; [apply IZR_le; lia|left; apply bpow_pos]).
  unfold f32_ext_le. destruct HV as [[_ B]|[_ B]]; rewrite B; simpl; lra.
Qed.

Lemma round_pos_mono_pos x y r1 r2 :
  0 < x <= y -> round_pos false x r1 -> round_pos false y r2 -> f32_ext_le r1 r2.
Proof.
  intros Hxy (kx & Nx & Hx & HNx & HVx) (ky & Ny & Hy & HNy & HVy).
  eapply round_val_mono_pos; [|exact HVx|exact HVy].
  eapply round_mag_mono; eassumption.
Qed.

Lemma round_pos_mono_neg x y r1 r2 :
  0 < y <= x -> round_pos true x r1 -> round_pos true y r2 -> f32_ext_le r1 r2.
Proof.
  intros Hxy (kx & Nx & Hx & HNx & HVx) (ky & Ny & Hy & HNy & HVy).
  eapply round_val_mono_neg; [|exact HVx|exact HVy].
  eapply round_mag_mono; eassumption.
Qed.

Lemma rounds_to_not_nan x r : rounds_to x r -> f32_ext r <> XNaN.
Proof.
  intros [[_ [s ->]]|[[_ (k & N & _ & _ & HV)]|[_ (k & N & _ & _ & HV)]]];
    [discriminate| |]; eapply round_val_not_nan; exact HV.
Qed.

(** Rounding is monotone: [x <= y] gives [round x <= round y]. *)
Lemma rounds_to_mono x y r1 r2 :
  x <= y -> rounds_to x r1 -> rounds_to y r2 -> f32_ext_le r1 r2.
Proof.
  intros Hxy H1 H2.
  destruct H1 as [[Hx [s1 ->]]|[[Hx R1]|[Hx R1]]];
  destruct H2 as [[Hy [s2 ->]]|[[Hy R2]|[Hy R2]]];
  try lra.
  - unfold f32_ext_le. simpl. lra.
  - eapply round_pos_sign_pos; eassumption.
  - apply (round_pos_mono_pos x y r1 r2); [lra|assumption|assumption].
  - apply (round_pos_sign_neg (- x)); [lra|assumption].
  - unfold f32_ext_le. eapply xr_le_trans.
    + apply (round_pos_sign_neg (- x) r1 false); [lra|exact R1].
    + apply (round_pos_sign_pos y r2 false); assumption.
  - apply (round_pos_mono_neg (- x) (- y) r1 r2); [lra|assumption|assumption].
Qed.

Lemma rounds_to_zero s : rounds_to 0 (S754_zero s).
Proof. left. split; [reflexivity|exists s; reflexivity]. Qed.

(** A valid binary32 number is its own rounding. *)
Lemma round_pos_exact s m e :
  f32_valid (S754_finite s m e) = true ->
  round_pos s (IZR (Zpos m) * bpow e) (S754_finite s m e).
Proof.
  intros Hv. pose proof (f32_valid_canonical _ _ _ Hv) as Hc.
  pose proof (f32_valid_finite _ _ _ Hv) as (He & Hm & _).
  exists (Zpos (Pos.size m) + e)%Z, (Zpos m).
  split; [apply mag_rel_pos|]. rewrite Hc.
  assert (Hu : IZR (Zpos m) * bpow e / bpow e = IZR (Zpos m))
    by (pose proof (bpow_pos e); field; lra).
  split.
  - unfold rne_rel. rewrite Hu, Rminus_diag, Rabs_R0. split; [lra|intro; lra].
  - right. split.
    + assert (IZR (Zpos m) < bpow 24) by (rewrite bpow_IZR by lia; apply IZR_lt; lia).
      assert (bpow e <= bpow 104) by (apply bpow_le; lia).
      pose proof (bpow_pos e).
      replace (bpow emax32) with (bpow 24 * bpow 104)
        by (rewrite <- bpow_add; reflexivity).
      assert (0 < IZR (Zpos m)) by (apply IZR_lt; lia). nra.
    + destruct s; simpl; [|reflexivity].
      change (Zneg m) with (- Zpos m)%Z. rewrite opp_IZR. f_equal. ring.
Qed.

Lemma rounds_to_exact x :
  is_finite x = true -> f32_valid x = true -> rounds_to (f32_value x) x.
Proof.
  intros Hf Hv. destruct x as [s|s| |s m e]; try discriminate.
  - apply rounds_to_zero.
  - assert (0 < IZR (Zpos m) * bpow e)
      by (apply Rmult_lt_0_compat; [apply IZR_lt; lia|apply bpow_pos]).
    right. destruct s; simpl.
    + right. change (Zneg m) with (- Zpos m)%Z. rewrite opp_IZR.
      split; [nra|]. replace (- (- IZR (Zpos m) * bpow e)) with (IZR (Zpos m) * bpow e)
        by ring. apply round_pos_exact. exact Hv.
    + left. split; [exact H|]. apply round_pos_exact. exact Hv.
Qed.

End Monotone.

Lemma Pos_iter_xO m d : Zpos (Pos.iter xO m d) = Zpos m * 2 ^ Zpos d.
Proof.
  rewrite <- Z.shiftl_mul_pow2 by lia. simpl Z.shiftl.
  apply (Pos.iter_swap_gen _ _ Zpos xO (Z.mul 2)). reflexivity.
Qed.

Lemma new_location_spec n r :
  0 < n -> 0 <= r < n ->
  match new_location n r with
  | loc_Exact => r = 0
  | loc_Inexact c => r <> 0 /\ Z.compare (2 * r) n = c
  end.
Proof.
  intros Hn Hr. unfold new_location, new_location_even, new_location_odd.
  case_eq (Z.even n); intros He;
  (case_eq (Z.eqb r 0); intros Hr0; [apply Z.eqb_eq in Hr0; exact Hr0|]);
  apply Z.eqb_neq in Hr0; split; try exact Hr0.
  - reflexivity.
  - assert (2 * r <> n).
    { intros E. rewrite <- E, Z.even_mul in He. discriminate. }
    destruct (Z.compare_spec (2 * r + 1) n).
    + apply Z.compare_lt_iff. lia.
    + apply Z.compare_lt_iff. lia.
    + apply Z.compare_gt_iff. lia.
Qed.

Section Operations.
Local Open Scope R_scope.

Lemma shl_align_spec m ex ex' :
  IZR (Zpos (fst (shl_align m ex ex'))) * bpow (snd (shl_align m ex ex')) =
    IZR (Zpos m) * bpow ex /\
  snd (shl_align m ex ex') = Z.min ex ex'.
Proof.
  unfold shl_align. destruct (ex' - ex)%Z as [|d|d] eqn:D; simpl.
  - split; [reflexivity|lia].
  - split; [reflexivity|lia].
  - split; [|lia]. rewrite Pos_iter_xO, mult_IZR, <- bpow_IZR by lia.
    replace ex with (ex' + Zpos d)%Z by lia. rewrite bpow_add. ring.
Qed.

(** [binary_round sx p e] rounds [p * 2^e]. *)
Lemma binary_round_spec sx p e :
  round_pos sx (IZR (Zpos p) * bpow e) (binary_round prec32 emax32 sx p e).
Proof.
  unfold binary_round. change (fexp prec32 emax32) with fexp32.
  rewrite digits2_pos_size.
  set (k := (Zpos (Pos.size p) + e)%Z).
  destruct (shl_align_spec p e (fexp32 k)) as [V Em].
  destruct (shl_align p e (fexp32 k)) as [mz ez]. simpl in V, Em.
  assert (Hx : 0 < IZR (Zpos p) * bpow e)
    by (apply Rmult_lt_0_compat; [apply IZR_lt; lia|apply bpow_pos]).
  apply (binary_round_aux_spec _ _ _ _ _ k Hx); [apply mag_rel_pos|lia|].
  rewrite <- V. unfold loc_rel.
  replace (IZR (Zpos mz) * bpow ez / bpow ez) with (IZR (Zpos mz))
    by (pose proof (bpow_pos ez); field; lra).
  split; [lra|reflexivity].
Qed.

Lemma f32_value_finite s m e :
  f32_value (S754_finite s m e) = (if s then - (IZR (Zpos m) * bpow e) else IZR (Zpos m) * bpow e).
Proof.
  destruct s; simpl; [|reflexivity].
  change (Zneg m) with (- Zpos m)%Z. rewrite opp_IZR. ring.
Qed.

Lemma rounds_to_signed s x r :
  0 < x -> round_pos s x r -> rounds_to (if s then - x else x) r.
Proof.
  intros Hx H. right. destruct s.
  - right. split; [lra|]. rewrite Ropp_involutive. exact H.
  - left. split; assumption.
Qed.

Lemma binary_normalize_spec D e :
  rounds_to (IZR D * bpow e) (binary_normalize prec32 emax32 D e false).
Proof.
  destruct D as [|p|p]; simpl binary_normalize.
  - rewrite Rmult_0_l. apply rounds_to_zero.
  - apply (rounds_to_signed false); [|apply binary_round_spec].
    apply Rmult_lt_0_compat; [apply IZR_lt; lia|apply bpow_pos].
  - change (Zneg p) with (- Zpos p)%Z. rewrite opp_IZR, Ropp_mult_distr_l_reverse.
    apply (rounds_to_signed true); [|apply binary_round_spec].
    apply Rmult_lt_0_compat; [apply IZR_lt; lia|apply bpow_pos].
Qed.

Lemma cond_Zopp_value s m e :
  IZR (cond_Zopp s (Zpos m)) * bpow e = f32_value (S754_finite s m e).
Proof. reflexivity. Qed.

(** Subtraction of two finite binary32 numbers is correctly rounded. *)
Lemma f32_sub_rounds a c :
  is_finite a = true -> is_finite c = true -> f32_valid a = true -> f32_valid c = true ->
  rounds_to (f32_value a - f32_value c) (f32_sub a c).
Proof.
  intros Ha Hc Va Vc.
  destruct a as [sa|sa| |sa ma ea]; try discriminate;
  destruct c as [sc|sc| |sc mc ec]; try discriminate.
  - simpl f32_value. rewrite Rminus_0_r.
    destruct sa, sc; apply rounds_to_zero.
  - unfold f32_sub, SFsub.
    replace (f32_value (S754_zero sa) - f32_value (S754_finite sc mc ec))
      with (f32_value (S754_finite (negb sc) mc ec))
      by (rewrite !f32_value_finite; destruct sc; simpl; ring).
    apply rounds_to_exact; [reflexivity|exact Vc].
  - simpl f32_value at 2. rewrite Rminus_0_r.
    apply rounds_to_exact; [reflexivity|exact Va].
  - unfold f32_sub, SFsub.
    set (ez := Z.min ea ec).
    destruct (shl_align_spec ma ea ez) as [Va' Ea].
    destruct (shl_align_spec mc ec ez) as [Vc' Ec].
    rewrite Ea in Va'. rewrite Ec in Vc'.
    replace (Z.min ea ez) with ez in Va' by (unfold ez; lia).
    replace (Z.min ec ez) with ez in Vc' by (unfold ez; lia).
    set (A := fst (shl_align ma ea ez)) in *.
    set (C := fst (shl_align mc ec ez)) in *.
    replace (f32_value (S754_finite sa ma ea) - f32_value (S754_finite sc mc ec))
      with (IZR (cond_Zopp sa (Zpos A) - cond_Zopp sc (Zpos C)) * bpow ez).
    + apply binary_normalize_spec.
    + rewrite minus_IZR, Rmult_minus_distr_r, !f32_value_finite, <- Va', <- Vc'.
      destruct sa, sc; cbn [cond_Zopp]; rewrite ?opp_IZR; ring.
Qed.

Lemma quotient_bounds X Y d1 d2 :
  bpow (d1 - 1) <= X < bpow d1 -> bpow (d2 - 1) <= Y < bpow d2 ->
  bpow (d1 - d2 - 1) < X / Y < bpow (d1 - d2 + 1).
Proof.
  intros [X1 X2] [Y1 Y2].
  pose proof (bpow_pos (d1 - 1)). pose proof (bpow_pos (d2 - 1)).
  assert (HY : 0 < Y) by lra.
  assert (E1 : bpow (d1 - d2 - 1) * bpow d2 = bpow (d1 - 1))
    by (rewrite <- bpow_add; f_equal; lia).
  assert (E2 : bpow (d1 - d2 + 1) * bpow (d2 - 1) = bpow d1)
    by (rewrite <- bpow_add; f_equal; lia).
  assert (Q : X / Y * Y = X) by (field; lra).
  pose proof (bpow_pos (d1 - d2 - 1)). pose proof (bpow_pos (d1 - d2 + 1)).
  split; nra.
Qed.

Lemma div_core_spec ma ea mc ec :
  let x := IZR (Zpos ma) * bpow ea / (IZR (Zpos mc) * bpow ec) in
  exists k, mag_rel x k /\
  (snd (fst (SFdiv_core_binary prec32 emax32 (Zpos ma) ea (Zpos mc) ec)) <= fexp32 k)%Z /\
  loc_rel (x / bpow (snd (fst (SFdiv_core_binary prec32 emax32 (Zpos ma) ea (Zpos mc) ec))))
    (fst (fst (SFdiv_core_binary prec32 emax32 (Zpos ma) ea (Zpos mc) ec)))
    (snd (SFdiv_core_binary prec32 emax32 (Zpos ma) ea (Zpos mc) ec)).
Proof.
  intros x.
  set (X := IZR (Zpos ma)) in *. set (Y := IZR (Zpos mc)) in *.
  set (d1 := Zpos (Pos.size ma)). set (d2 := Zpos (Pos.size mc)).
  assert (BX := pos_bounds ma). assert (BY := pos_bounds mc).
  fold X d1 in BX. fold Y d2 in BY.
  assert (HX : 0 < X) by (apply IZR_lt; lia).
  assert (HY : 0 < Y) by (apply IZR_lt; lia).
  set (z := (d1 + ea - (d2 + ec))%Z).
  assert (Ex : x = X / Y * bpow (ea - ec)).
  { unfold x. replace ea with (ea - ec + ec)%Z at 1 by lia. rewrite bpow_add.
    pose proof (bpow_pos ec). field. lra. }
  pose proof (quotient_bounds X Y d1 d2 BX BY) as [Q1 Q2].
  assert (Bx : bpow (z - 1) < x < bpow (z + 1)).
  { rewrite Ex. pose proof (bpow_pos (ea - ec)).
    replace (z - 1)%Z with (d1 - d2 - 1 + (ea - ec))%Z by (unfold z; lia).
    replace (z + 1)%Z with (d1 - d2 + 1 + (ea - ec))%Z by (unfold z; lia).
    rewrite (bpow_add (d1 - d2 - 1) (ea - ec)), (bpow_add (d1 - d2 + 1) (ea - ec)).
    split; nra. }
  assert (Hk : exists k, mag_rel x k /\ (z <= k)%Z).
  { destruct (Rlt_le_dec x (bpow z)) as [H|H].
    - exists z. split; [split; lra|lia].
    - exists (z + 1)%Z. split; [|lia]. unfold mag_rel.
      replace (z + 1 - 1)%Z with z by lia. split; lra. }
  destruct Hk as [k [Hk Hzk]]. exists k. split; [exact Hk|].
  unfold SFdiv_core_binary. change (fexp prec32 emax32) with fexp32.
  rewrite !Zdigits2_pos. fold d1 d2.
  replace (d1 + ea - (d2 + ec))%Z with z by reflexivity.
  set (e' := Z.min (fexp32 z) (ea - ec)).
  set (s := (ea - ec - e')%Z).
  assert (Hs : (0 <= s)%Z) by (unfold s, e'; lia).
  set (m' := match s with Zpos _ => Z.shiftl (Zpos ma) s | Z0 => Zpos ma | Zneg _ => 0%Z end).
  assert (Hm' : m' = (Zpos ma * 2 ^ s)%Z).
  { unfold m'. destruct s as [|p|p]; [lia| |lia].
    apply Z.shiftl_mul_pow2. lia. }
  pose proof (Z_div_mod m' (Zpos mc) ltac:(lia)) as Hdm.
  destruct (Z.div_eucl m' (Zpos mc)) as [q r] eqn:Edm.
  destruct Hdm as [Hdm Hr]. simpl fst. simpl snd.
  split.
  - apply Z.le_trans with (fexp32 z); [unfold e'; lia|apply fexp32_mono; exact Hzk].
  - assert (U : x / bpow e' = IZR q + IZR r / Y).
    { rewrite Ex. pose proof (bpow_pos e').
      assert (IZR m' = X * bpow s) by (rewrite Hm', mult_IZR, bpow_IZR by exact Hs; reflexivity).
      assert (IZR m' = Y * IZR q + IZR r) by (rewrite Hdm, plus_IZR, mult_IZR; reflexivity).
      assert (bpow (ea - ec) = bpow s * bpow e') by (rewrite <- bpow_add; f_equal; unfold s; lia).
      rewrite H2.
      replace (X / Y * (bpow s * bpow e') / bpow e') with (X * bpow s / Y)
        by (field; lra).
      rewrite <- H0, H1. field. lra. }
    rewrite U.
    assert (R0 : 0 <= IZR r / Y < 1).
    { split; [unfold Rdiv; apply Rmult_le_pos;
              [apply IZR_le; lia|left; apply Rinv_0_lt_compat; exact HY]|].
      apply Rmult_lt_reg_r with Y; [exact HY|].
      unfold Rdiv. rewrite Rmult_assoc, Rinv_l, Rmult_1_r by lra. rewrite Rmult_1_l.
      apply IZR_lt. lia. }
    pose proof (new_location_spec (Zpos mc) r ltac:(lia) Hr) as NL.
    unfold loc_rel. split; [lra|].
    assert (Rq : IZR q + IZR r / Y - IZR q = IZR r / Y) by ring.
    destruct (new_location (Zpos mc) r) as [|c].
    + rewrite NL. unfold Rdiv. rewrite Rmult_0_l, Rplus_0_r. reflexivity.
    + destruct NL as [Nr Nc]. rewrite Rq.
      assert (0 < IZR r / Y).
      { unfold Rdiv; apply Rmult_lt_0_compat;
          [apply IZR_lt; lia|apply Rinv_0_lt_compat; exact HY]. }
      split; [lra|].
      assert (Hhalf : forall c', Z.compare (2 * r) (Zpos mc) = c' ->
        match c' with
        | Lt => IZR r / Y < / 2
        | Eq => IZR r / Y = / 2
        | Gt => IZR r / Y > / 2
        end).
      { intros c' Hc'. destruct c'.
        - apply Z.compare_eq_iff in Hc'.
          assert (Hy2 : IZR (2 * r) = Y) by (unfold Y; rewrite Hc'; reflexivity).
          rewrite mult_IZR in Hy2. rewrite <- Hy2. field.
          intro Z0. rewrite Z0 in Hy2. lra.
        - apply Z.compare_lt_iff in Hc'. apply IZR_lt in Hc'. rewrite mult_IZR in Hc'.
          apply Rmult_lt_reg_r with Y; [exact HY|].
          unfold Rdiv. rewrite Rmult_assoc, Rinv_l, Rmult_1_r by lra. fold Y in Hc'. lra.
        - apply Z.compare_gt_iff in Hc'. apply IZR_lt in Hc'. rewrite mult_IZR in Hc'.
          apply Rmult_lt_reg_r with Y; [exact HY|].
          unfold Rdiv. rewrite Rmult_assoc, Rinv_l, Rmult_1_r by lra. fold Y in Hc'. lra. }
      exact (Hhalf c Nc).
Qed.

(** Division of a finite binary32 number by a nonzero finite one is
    correctly rounded. *)
Lemma f32_div_rounds a sc mc ec :
  is_finite a = true ->
  rounds_to (f32_value a / f32_value (S754_finite sc mc ec))
            (f32_div a (S754_finite sc mc ec)).
Proof.
  intros Ha. destruct a as [sa|sa| |sa ma ea]; try discriminate.
  - simpl f32_value at 1. unfold Rdiv. rewrite Rmult_0_l.
    unfold f32_div, SFdiv. apply rounds_to_zero.
  - unfold f32_div, SFdiv.
    pose proof (div_core_spec ma ea mc ec) as (k & Hk & He & Hl).
    destruct (SFdiv_core_binary prec32 emax32 (Zpos ma) ea (Zpos mc) ec)
      as [[q e'] l]. simpl in He, Hl.
    set (x := IZR (Zpos ma) * bpow ea / (IZR (Zpos mc) * bpow ec)) in *.
    assert (Hx : 0 < x).
    { unfold x, Rdiv. apply Rmult_lt_0_compat; [|apply Rinv_0_lt_compat];
        apply Rmult_lt_0_compat; (apply IZR_lt; lia) || apply bpow_pos. }
    pose proof (binary_round_aux_spec (xorb sa sc) q e' l x k Hx Hk He Hl) as R.
    replace (f32_value (S754_finite sa ma ea) / f32_value (S754_finite sc mc ec))
      with (if xorb sa sc then - x else x).
    + apply rounds_to_signed; assumption.
    + rewrite !f32_value_finite. unfold x.
      assert (0 < IZR (Zpos mc)) by (apply IZR_lt; lia).
      pose proof (bpow_pos ec).
      destruct sa, sc; simpl; field; nra.
Qed.

End Operations.

Section Quantize.
Local Open Scope R_scope.

Lemma f32_ext_finite x : is_finite x = true -> f32_ext x = XFin (f32_value x).
Proof. destruct x; try discriminate; reflexivity. Qed.

Lemma f32_value_pos m e : f32_value (S754_finite false m e) = IZR (Zpos m) * bpow e.
Proof. reflexivity. Qed.

Lemma f32_value_neg m e : f32_value (S754_finite true m e) = - (IZR (Zpos m) * bpow e).
Proof. rewrite f32_value_finite. reflexivity. Qed.

Lemma pos_val_pos m e : 0 < IZR (Zpos m) * bpow e.
Proof. apply Rmult_lt_0_compat; [apply IZR_lt; lia | apply bpow_pos]. Qed.

Lemma trunc_pos_floor m e :
  IZR (trunc_pos m e) <= IZR (Zpos m) * bpow e < IZR (trunc_pos m e) + 1.
Proof.
  unfold trunc_pos. destruct (Z_le_gt_dec 0 e) as [He|He].
  - rewrite Z.shiftl_mul_pow2 by exact He. rewrite mult_IZR, <- (bpow_IZR e He). lra.
  - destruct e as [|p|p]; [lia|lia|].
    change (Z.shiftl (Zpos m) (Zneg p)) with (Z.shiftr (Zpos m) (Zpos p)).
    rewrite Z.shiftr_div_pow2 by lia.
    assert (Hd : (0 < 2 ^ Zpos p)%Z) by (apply Z.pow_pos_nonneg; lia).
    pose proof (Z.mul_div_le (Zpos m) (2 ^ Zpos p) Hd) as L.
    pose proof (Z.mul_succ_div_gt (Zpos m) (2 ^ Zpos p) Hd) as U.
    rewrite <- Z.add_1_r in U.
    apply IZR_le in L. apply IZR_lt in U. rewrite mult_IZR in L, U. rewrite plus_IZR in U.
    rewrite <- (bpow_IZR (Zpos p)) in L, U by lia.
    assert (E : bpow (Zpos p) * bpow (Zneg p) = 1).
    { rewrite <- bpow_add. replace (Zpos p + Zneg p)%Z with 0%Z by lia. reflexivity. }
    pose proof (bpow_pos (Zpos p)) as Bp.
    set (q := (Zpos m / 2 ^ Zpos p)%Z) in *.
    split.
    + apply Rmult_le_reg_l with (bpow (Zpos p)); [exact Bp|].
      replace (bpow (Zpos p) * (IZR (Zpos m) * bpow (Zneg p))) with (IZR (Zpos m))
        by (transitivity (IZR (Zpos m) * (bpow (Zpos p) * bpow (Zneg p))); [rewrite E; ring | ring]).
      exact L.
    + apply Rmult_lt_reg_l with (bpow (Zpos p)); [exact Bp|].
      replace (bpow (Zpos p) * (IZR (Zpos m) * bpow (Zneg p))) with (IZR (Zpos m))
        by (transitivity (IZR (Zpos m) * (bpow (Zpos p) * bpow (Zneg p))); [rewrite E; ring | ring]).
      exact U.
Qed.

Lemma as_u16_clamp_spec q : u16_of_xr (f32_ext q) (f32_as_u16 (f32_max q zero32)).
Proof.
  destruct q as [[|]|[|]| |[|] m e]; try reflexivity.
  1,2: exists 0%Z; rewrite Rmax_left by lra; split; [lra | reflexivity].
  - exists 0%Z. cbn [f32_ext]. rewrite f32_value_neg. pose proof (pos_val_pos m e).
    rewrite Rmax_right by lra. split; [lra | reflexivity].
  - exists (trunc_pos m e). cbn [f32_ext]. rewrite f32_value_pos.
    pose proof (pos_val_pos m e). rewrite Rmax_left by lra.
    split; [apply trunc_pos_floor | reflexivity].
Qed.

Lemma u16_of_xr_bounds a n : u16_of_xr a n -> (0 <= n <= u16_MAX)%Z.
Proof.
  intros H. destruct a as [|v| |]; simpl in H; unfold u16_MAX in *; try lia.
  destruct H as [z [[L U] ->]].
  assert (Hz : (-1 < z)%Z).
  { apply lt_IZR. pose proof (Rmax_r v 0). simpl. lra. }
  lia.
Qed.

Lemma u16_of_xr_mono a b n k :
  xr_le a b -> u16_of_xr a n -> u16_of_xr b k -> (n <= k)%Z.
Proof.
  intros Hab Ha Hb.
  pose proof (u16_of_xr_bounds a n Ha). pose proof (u16_of_xr_bounds b k Hb).
  destruct a as [|u| |], b as [|v| |]; simpl in Hab, Ha, Hb; try contradiction; try lia.
  destruct Ha as [z1 [[L1 U1] ->]], Hb as [z2 [[L2 U2] ->]].
  assert (Rmax u 0 <= Rmax v 0) by (unfold Rmax; destruct (Rle_dec u 0), (Rle_dec v 0); lra).
  assert (Hz : (z1 < z2 + 1)%Z) by (apply lt_IZR; rewrite plus_IZR; simpl; lra).
  lia.
Qed.

(** [f32_le] on genuine binary32 values is the order of their values. *)

Lemma f32_valid_exp s m e : f32_valid (S754_finite s m e) = true ->
  (-149 <= e)%Z /\ (Zpos (Pos.size m) + e - 24 <= e)%Z /\
  ((-149 < e)%Z -> Zpos (Pos.size m) = 24%Z).
Proof. intros H. apply f32_valid_canonical in H. rewrite fexp32_eq in H. lia. Qed.

Lemma pos_val_lt_exp s1 m1 e1 s2 m2 e2 :
  f32_valid (S754_finite s1 m1 e1) = true -> f32_valid (S754_finite s2 m2 e2) = true ->
  (e1 < e2)%Z -> IZR (Zpos m1) * bpow e1 < IZR (Zpos m2) * bpow e2.
Proof.
  intros H1 H2 He.
  apply f32_valid_exp in H1 as (A1 & B1 & _). apply f32_valid_exp in H2 as (A2 & _ & C2).
  specialize (C2 ltac:(lia)).
  pose proof (mag_rel_pos m1 e1) as [_ U1]. pose proof (mag_rel_pos m2 e2) as [L2 _].
  pose proof (bpow_le (Zpos (Pos.size m1) + e1) (Zpos (Pos.size m2) + e2 - 1) ltac:(lia)).
  lra.
Qed.

Lemma pos_val_le s1 m1 e1 s2 m2 e2 :
  f32_valid (S754_finite s1 m1 e1) = true -> f32_valid (S754_finite s2 m2 e2) = true ->
  lexcmp (1, e1, Zpos m1)%Z (1, e2, Zpos m2)%Z <> Gt ->
  IZR (Zpos m1) * bpow e1 <= IZR (Zpos m2) * bpow e2.
Proof.
  intros H1 H2 H. unfold lexcmp in H. rewrite Z.compare_refl in H.
  destruct (Z.compare_spec e1 e2) as [->|Hlt|Hgt].
  - apply Rmult_le_compat_r; [left; apply bpow_pos|]. apply IZR_le.
    destruct (Z.compare_spec (Zpos m1) (Zpos m2)); [lia|lia|congruence].
  - left. eapply pos_val_lt_exp; eassumption.
  - congruence.
Qed.

Lemma lexcmp_neg a b c d :
  lexcmp (-1, - a, - c)%Z (-1, - b, - d)%Z = lexcmp (1, b, d)%Z (1, a, c)%Z.
Proof. unfold lexcmp. rewrite !Z.compare_refl, !Z.compare_opp. reflexivity. Qed.

Lemma f32_le_ext x y : f32_valid x = true -> f32_valid y = true ->
  f32_le x y = true -> f32_ext_le x y.
Proof.
  intros Vx Vy H.
  assert (Nx : is_nan x = false) by (destruct x; try reflexivity; discriminate H).
  assert (Ny : is_nan y = false) by (destruct y; try reflexivity; destruct x; discriminate H).
  apply (f32_le_lex x y Nx Ny) in H. unfold f32_ext_le.
  destruct x as [[|]|[|]| |[|] m1 e1], y as [[|]|[|]| |[|] m2 e2];
    try discriminate Nx; try discriminate Ny; cbn [fkey] in H;
    try (exfalso; apply H; reflexivity); cbn [f32_ext xr_le]; try exact I;
    rewrite ?f32_value_pos, ?f32_value_neg;
    try pose proof (pos_val_pos m1 e1); try pose proof (pos_val_pos m2 e2); try lra.
  - rewrite lexcmp_neg in H. pose proof (pos_val_le _ _ _ _ _ _ Vy Vx H). lra.
  - exact (pos_val_le _ _ _ _ _ _ Vx Vy H).
Qed.

Lemma f32_lt_le x y : f32_lt x y = true -> f32_le x y = true.
Proof.
  unfold f32_lt, f32_le, SFltb, SFleb. destruct (SFcompare x y) as [[]|]; congruence.
Qed.

(** Operations that keep infinities and round a monotone function of
    their finite argument are monotone. *)

Lemma xr_le_l_not_nan a b : xr_le a b -> a <> XNaN.
Proof. destruct a, b; simpl; congruence. Qed.

Lemma xr_le_r_not_nan a b : xr_le a b -> b <> XNaN.
Proof. destruct a, b; simpl; congruence. Qed.

Lemma xr_le_neginf b : b <> XNaN -> xr_le XNegInf b.
Proof. destruct b; simpl; auto. Qed.

Lemma xr_le_posinf a : a <> XNaN -> xr_le a XPosInf.
Proof. destruct a; simpl; auto. Qed.

Lemma xr_le_posinf_inv b : xr_le XPosInf b -> b = XPosInf.
Proof. destruct b; simpl; tauto. Qed.

Lemma xr_le_neginf_inv a : xr_le a XNegInf -> a = XNegInf.
Proof. destruct a; simpl; tauto. Qed.

Lemma f32_ext_posinf x : f32_ext x = XPosInf -> x = S754_infinity false.
Proof. destruct x as [[|]|[|]| |]; simpl; congruence. Qed.

Lemma op_mono (F : f32 -> f32) (h : R -> R) (V : f32 -> Prop) :
  (forall u v, u <= v -> h u <= h v) ->
  (forall s, F (S754_infinity s) = S754_infinity s) ->
  (forall x, is_finite x = true -> V x -> rounds_to (h (f32_value x)) (F x)) ->
  forall x y, V x -> V y -> f32_ext_le x y -> f32_ext_le (F x) (F y).
Proof.
  intros Hh Hinf Hfin x y Vx Vy Hxy. unfold f32_ext_le in *.
  assert (NN : forall z, V z -> f32_ext z <> XNaN -> f32_ext (F z) <> XNaN).
  { intros z Vz Hz. destruct (is_finite z) eqn:Fz.
    - exact (rounds_to_not_nan _ _ (Hfin z Fz Vz)).
    - destruct z as [s|s| |s m e]; try discriminate Fz.
      + rewrite Hinf. destruct s; discriminate.
      + exfalso; apply Hz; reflexivity. }
  pose proof (xr_le_l_not_nan _ _ Hxy) as Nx. pose proof (xr_le_r_not_nan _ _ Hxy) as Ny.
  destruct (is_finite x) eqn:Fx.
  - destruct (is_finite y) eqn:Fy.
    + rewrite !f32_ext_finite in Hxy by assumption.
      exact (rounds_to_mono _ _ _ _ (Hh _ _ Hxy) (Hfin x Fx Vx) (Hfin y Fy Vy)).
    + destruct y as [[|]|[|]| |]; try discriminate Fy.
      * rewrite f32_ext_finite in Hxy by assumption. destruct Hxy.
      * rewrite Hinf. apply xr_le_posinf, NN; assumption.
      * exfalso; apply Ny; reflexivity.
  - destruct x as [[|]|[|]| |]; try discriminate Fx.
    + rewrite Hinf. apply xr_le_neginf, NN; assumption.
    + apply xr_le_posinf_inv, f32_ext_posinf in Hxy. subst y. rewrite Hinf. exact I.
    + exfalso; apply Nx; reflexivity.
Qed.

Lemma div_pos_mono mc ec x y : f32_ext_le x y ->
  f32_ext_le (f32_div x (S754_finite false mc ec)) (f32_div y (S754_finite false mc ec)).
Proof.
  intros H.
  apply (op_mono (fun z => f32_div z (S754_finite false mc ec))
           (fun u => u / f32_value (S754_finite false mc ec)) (fun _ => True)); auto.
  - intros u v Huv. unfold Rdiv. apply Rmult_le_compat_r; [|exact Huv].
    left. apply Rinv_0_lt_compat. rewrite f32_value_pos. apply pos_val_pos.
  - intros s. destruct s; reflexivity.
  - intros z Fz _. apply f32_div_rounds, Fz.
Qed.

Lemma sub_mono c x y : is_finite c = true -> f32_valid c = true ->
  f32_valid x = true -> f32_valid y = true -> f32_ext_le x y ->
  f32_ext_le (f32_sub x c) (f32_sub y c).
Proof.
  intros Fc Vc Vx Vy H.
  apply (op_mono (fun z => f32_sub z c) (fun u => u - f32_value c)
           (fun z => f32_valid z = true)); auto.
  - intros; lra.
  - intros s. destruct c; try discriminate Fc; reflexivity.
  - intros z Fz Vz. apply f32_sub_rounds; assumption.
Qed.

(** The division by a positive cell size, the clamp and the cast. *)

Lemma cs_pos_cases cs : f32_lt zero32 cs = true ->
  (exists mc ec, cs = S754_finite false mc ec) \/ cs = S754_infinity false.
Proof.
  destruct cs as [[|]|[|]| |[|] mc ec]; intros H; simpl in H; try discriminate H; eauto.
Qed.

Lemma post_div_inf q : f32_as_u16 (f32_max (f32_div q (S754_infinity false)) zero32) = 0%Z.
Proof. destruct q as [[|]|[|]| |[|] m e]; reflexivity. Qed.

Lemma post_nan cs : f32_as_u16 (f32_max (f32_div S754_nan cs) zero32) = 0%Z.
Proof. destruct cs; reflexivity. Qed.

Lemma post_neg_inf cs : f32_lt zero32 cs = true ->
  f32_as_u16 (f32_max (f32_div (S754_infinity true) cs) zero32) = 0%Z.
Proof. intros H. destruct (cs_pos_cases cs H) as [[mc [ec ->]]| ->]; reflexivity. Qed.

Lemma post_zero cs s : f32_lt zero32 cs = true ->
  f32_as_u16 (f32_max (f32_div (S754_zero s) cs) zero32) = 0%Z.
Proof. intros H. destruct (cs_pos_cases cs H) as [[mc [ec ->]]| ->]; destruct s; reflexivity. Qed.

Lemma post_mono cs q1 q2 : f32_lt zero32 cs = true -> f32_ext_le q1 q2 ->
  (f32_as_u16 (f32_max (f32_div q1 cs) zero32) <=
   f32_as_u16 (f32_max (f32_div q2 cs) zero32))%Z.
Proof.
  intros Hc H. destruct (cs_pos_cases cs Hc) as [[mc [ec ->]]| ->].
  - apply (u16_of_xr_mono _ _ _ _ (div_pos_mono mc ec q1 q2 H)); apply as_u16_clamp_spec.
  - rewrite !post_div_inf. lia.
Qed.

Lemma f32_as_u16_bounds x : (0 <= f32_as_u16 x <= u16_MAX)%Z.
Proof.
  unfold u16_MAX. destruct x as [[|]|[|]| |[|] m e]; cbn [f32_as_u16]; unfold u16_MAX; try lia.
  unfold trunc_pos. assert (0 <= Z.shiftl (Zpos m) e)%Z by (apply Z.shiftl_nonneg; lia). lia.
Qed.

Lemma sub_inf_cases x s :
  f32_sub x (S754_infinity s) = S754_infinity (negb s) \/ f32_sub x (S754_infinity s) = S754_nan.
Proof. destruct x as [[|]|[|]| |[|] m e], s; simpl; auto. Qed.

Lemma sub_neginf x : f32_ext x <> XNaN -> f32_ext x <> XNegInf ->
  f32_sub x (S754_infinity true) = S754_infinity false.
Proof.
  intros H1 H2. destruct x as [[|]|[|]| |[|] m e]; try reflexivity;
    exfalso; [apply H2 | apply H1]; reflexivity.
Qed.

Lemma sub_self x : is_finite x = true -> f32_valid x = true ->
  exists s, f32_sub x x = S754_zero s.
Proof.
  intros F V. pose proof (f32_sub_rounds x x F F V V) as H.
  rewrite Rminus_diag in H. destruct H as [[_ H]|[[H _]|[H _]]]; [exact H|lra|lra].
Qed.

Lemma quantize_mono a b bmin cs :
  f32_valid a = true -> f32_valid b = true -> f32_valid bmin = true ->
  f32_lt zero32 cs = true -> f32_le a b = true ->
  (world_unit_to_cell_unit a bmin cs <= world_unit_to_cell_unit b bmin cs)%Z.
Proof.
  intros Va Vb Vm Hc Hab. pose proof (f32_le_ext a b Va Vb Hab) as H.
  unfold world_unit_to_cell_unit.
  destruct (is_finite bmin) eqn:Fm.
  - apply post_mono; [exact Hc|]. apply sub_mono; assumption.
  - pose proof (xr_le_l_not_nan _ _ H) as Na. pose proof (xr_le_r_not_nan _ _ H) as Nb.
    unfold f32_ext_le in H.
    destruct bmin as [[|]|[|]| |]; try discriminate Fm.
    + destruct (f32_ext a) eqn:Ea.
      * destruct a as [[|]|[|]| |[|] m e]; try discriminate Ea.
        replace (f32_sub (S754_infinity true) (S754_infinity true)) with S754_nan
          by reflexivity.
        rewrite post_nan. apply f32_as_u16_bounds.
      * assert (f32_ext b <> XNegInf).
        { intros Eb. rewrite Eb in H. destruct H. }
        rewrite !sub_neginf by congruence. lia.
      * assert (f32_ext b <> XNegInf).
        { intros Eb. rewrite Eb in H. destruct H. }
        rewrite !sub_neginf by congruence. lia.
      * congruence.
    + destruct (sub_inf_cases a false) as [E|E]; rewrite E; cbn [negb];
        [rewrite post_neg_inf by exact Hc | rewrite post_nan];
        (destruct (sub_inf_cases b false) as [E'|E']; rewrite E'; cbn [negb];
          [rewrite post_neg_inf by exact Hc | rewrite post_nan]); lia.
    + replace (f32_sub a S754_nan) with S754_nan by (destruct a; reflexivity).
      replace (f32_sub b S754_nan) with S754_nan by (destruct b; reflexivity).
      rewrite post_nan. lia.
Qed.

Lemma quantize_self bmin cs : f32_valid bmin = true -> is_nan bmin = false ->
  f32_lt zero32 cs = true -> world_unit_to_cell_unit bmin bmin cs = 0%Z.
Proof.
  intros V N Hc. unfold world_unit_to_cell_unit.
  destruct (is_finite bmin) eqn:F.
  - destruct (sub_self bmin F V) as [s ->]. apply post_zero, Hc.
  - destruct bmin as [[|]|[|]| |]; try discriminate F; try discriminate N;
      apply post_nan.
Qed.

End Quantize.

(** C4: for a cell size [cs > 0], the quantisation computes the binary32
    quotient [q = (f - bmin) / cs], clamps it to [[0, +inf)] and truncates:
    a finite [q] gives the integer part of [max q 0] (capped at
    [u16::MAX]), [+inf] gives [u16::MAX], [-inf] gives [0]; in particular a
    world value below [bmin] quantises to [0]. *)
Theorem world_unit_to_cell_unit_floor_clamp (f bmin cs : f32) :
  f32_lt zero32 cs = true ->
  let q := f32_div (f32_sub f bmin) cs in
  let r := world_unit_to_cell_unit f bmin cs in
  (forall v, f32_ext q = XFin v ->
     exists z, (IZR z <= Rmax v 0 < IZR z + 1)%R /\ r = Z.min u16_MAX z) /\
  (f32_ext q = XPosInf -> r = u16_MAX) /\
  (f32_ext q = XNegInf -> r = 0%Z) /\
  (f32_valid f = true -> f32_valid bmin = true -> f32_lt f bmin = true -> r = 0%Z).
Proof.
  intros Hc. cbv zeta.
  pose proof (as_u16_clamp_spec (f32_div (f32_sub f bmin) cs)) as S.
  split; [|split; [|split]].
  - intros v Hv. rewrite Hv in S. exact S.
  - intros Hv. rewrite Hv in S. exact S.
  - intros Hv. rewrite Hv in S. exact S.
  - intros Vf Vm Hlt.
    assert (Nm : is_nan bmin = false)
      by (destruct bmin; try reflexivity; destruct f; discriminate Hlt).
    pose proof (quantize_mono f bmin bmin cs Vf Vm Vm Hc (f32_lt_le _ _ Hlt)) as M.
    rewrite (quantize_self bmin cs Vm Nm Hc) in M.
    pose proof (f32_as_u16_bounds (f32_max (f32_div (f32_sub f bmin) cs) zero32)) as B.
    change (f32_as_u16 (f32_max (f32_div (f32_sub f bmin) cs) zero32))
      with (world_unit_to_cell_unit f bmin cs) in B.
    lia.
Qed.

Lemma world_unit_to_cell_unit_floor_clamp_witness :
  f32_lt zero32 one32 = true /\
  (f32_valid zero32 = true -> f32_valid one32 = true -> f32_lt zero32 one32 = true ->
   world_unit_to_cell_unit zero32 one32 one32 = 0%Z).
Proof.
  split; [reflexivity|].
  exact (proj2 (proj2 (proj2
    (world_unit_to_cell_unit_floor_clamp zero32 one32 one32 eq_refl)))).
Defined.

(** C7: for a fixed [bmin] and a cell size [cs > 0], the quantisation is
    monotone in the world value: [a <= b] (both non-NaN) gives
    [quantize a <= quantize b]; and for a world value [>= bmin] the
    result is [>= 0]. *)
Theorem world_unit_to_cell_unit_monotone (a b bmin cs : f32) :
  f32_valid a = true -> f32_valid b = true -> f32_valid bmin = true ->
  is_nan a = false -> is_nan b = false ->
  f32_lt zero32 cs = true -> f32_le a b = true ->
  (world_unit_to_cell_unit a bmin cs <= world_unit_to_cell_unit b bmin cs)%Z /\
  (f32_le bmin a = true -> (0 <= world_unit_to_cell_unit a bmin cs)%Z).
Proof.
  intros Va Vb Vm Na Nb Hc Hab. split.
  - exact (quantize_mono a b bmin cs Va Vb Vm Hc Hab).
  - intros _. exact (proj1 (f32_as_u16_bounds _)).
Qed.

Lemma world_unit_to_cell_unit_monotone_witness :
  f32_lt zero32 one32 = true /\ f32_le zero32 one32 = true /\
  (world_unit_to_cell_unit zero32 zero32 one32 <=
   world_unit_to_cell_unit one32 zero32 one32)%Z.
Proof.
  split; [reflexivity|]. split; [reflexivity|].
  exact (proj1 (world_unit_to_cell_unit_monotone zero32 one32 zero32 one32
    eq_refl eq_refl eq_refl eq_refl eq_refl eq_refl eq_refl)).
Defined.

(** C10: for every input the result lies in [[0, u16::MAX]]; a quotient
    [(f - bmin) / cs] that is [+inf] or at least [65535] gives
    [u16::MAX] (saturation, no wrap-around), a NaN quotient gives [0].
    With [cs = 0]: [f = bmin] (finite) makes the quotient NaN and the
    result [0], and [1.0] against [bmin = 0] gives [u16::MAX]. *)
Theorem world_unit_to_cell_unit_saturates (f bmin cs : f32) :
  let q := f32_div (f32_sub f bmin) cs in
  let r := world_unit_to_cell_unit f bmin cs in
  (0 <= r <= u16_MAX)%Z /\
  ((f32_ext q = XPosInf \/ exists v, f32_ext q = XFin v /\ (IZR u16_MAX <= v)%R) ->
     r = u16_MAX) /\
  (q = S754_nan -> r = 0%Z) /\
  (is_finite f = true -> f32_valid f = true ->
     f32_div (f32_sub f f) zero32 = S754_nan /\ world_unit_to_cell_unit f f zero32 = 0%Z) /\
  world_unit_to_cell_unit one32 zero32 zero32 = u16_MAX.
Proof.
  cbv zeta.
  pose proof (as_u16_clamp_spec (f32_div (f32_sub f bmin) cs)) as S.
  split; [apply f32_as_u16_bounds|]. split; [|split; [|split]].
  - intros [Hv|[v [Hv Hge]]]; rewrite Hv in S; [exact S|].
    destruct S as [z [[L U] E]].
    change (world_unit_to_cell_unit f bmin cs)
      with (f32_as_u16 (f32_max (f32_div (f32_sub f bmin) cs) zero32)).
    rewrite E.
    unfold u16_MAX in *. rewrite Rmax_left in L, U by lra.
    assert (Hz : (65535 < z + 1)%Z) by (apply lt_IZR; rewrite plus_IZR; lra).
    lia.
  - intros Hq.
    change (world_unit_to_cell_unit f bmin cs)
      with (f32_as_u16 (f32_max (f32_div (f32_sub f bmin) cs) zero32)).
    rewrite Hq. reflexivity.
  - intros F V. destruct (sub_self f F V) as [s E].
    change (world_unit_to_cell_unit f f zero32)
      with (f32_as_u16 (f32_max (f32_div (f32_sub f f) zero32) zero32)).
    rewrite E. destruct s; split; reflexivity.
  - reflexivity.
Qed.

(** * Further properties of the code *)

(** ** [compute_bb]: shape of the input, NaN coordinates *)

Lemma mod3_step n : ((S (S (S n))) mod 3 = n mod 3)%nat.
Proof.
  replace (S (S (S n))) with (n + 1 * 3)%nat by lia. apply Nat.Div0.mod_add.
Qed.

Lemma compute_bb_loop_none : forall vs bmin bmax,
  (List.length vs mod 3 <> 0)%nat -> compute_bb_loop vs bmin bmax = None.
Proof.
  fix IH 1. intros [|a [|b [|c rest]]] bmin bmax H.
  - exfalso. apply H. reflexivity.
  - reflexivity.
  - reflexivity.
  - simpl. apply IH. cbn [List.length] in H. rewrite mod3_step in H. exact H.
Qed.

Lemma min_step_nan a m : is_nan m = false ->
  is_nan (f32_min a m) = false /\ f32_le (f32_min a m) m = true /\
  (is_nan a = false -> f32_le (f32_min a m) a = true) /\
  (f32_min a m = a \/ f32_min a m = m).
Proof.
  intros Hm. destruct (is_nan a) eqn:Ha.
  - assert (E : f32_min a m = m) by (unfold f32_min; rewrite Ha; reflexivity).
    rewrite E. split; [exact Hm|]. split; [apply f32_le_refl, Hm|].
    split; [discriminate | right; reflexivity].
  - destruct (f32_min_spec a m Ha Hm) as (N & L1 & L2 & O). auto.
Qed.

Lemma max_step_nan a m : is_nan m = false ->
  is_nan (f32_max a m) = false /\ f32_le m (f32_max a m) = true /\
  (is_nan a = false -> f32_le a (f32_max a m) = true) /\
  (f32_max a m = a \/ f32_max a m = m).
Proof.
  intros Hm. destruct (is_nan a) eqn:Ha.
  - assert (E : f32_max a m = m) by (unfold f32_max; rewrite Ha; reflexivity).
    rewrite E. split; [exact Hm|]. split; [apply f32_le_refl, Hm|].
    split; [discriminate | right; reflexivity].
  - destruct (f32_max_spec a m Ha Hm) as (N & L1 & L2 & O). auto.
Qed.

(** Invariant of the [compute_bb] loop on an arbitrary input: NaN
    coordinates are skipped by [f32::min] / [f32::max]. *)
Lemma compute_bb_loop_inv_nan : forall vs bmin bmax rmin rmax,
  (forall k, is_nan (sel k bmin) = false /\ is_nan (sel k bmax) = false) ->
  compute_bb_loop vs bmin bmax = Some (rmin, rmax) ->
  forall k, (k < 3)%nat ->
    is_nan (sel k rmin) = false /\ is_nan (sel k rmax) = false /\
    f32_le (sel k rmin) (sel k bmin) = true /\
    f32_le (sel k bmax) (sel k rmax) = true /\
    (sel k rmin = sel k bmin \/ exists i, nth_error vs (3 * i + k) = Some (sel k rmin)) /\
    (sel k rmax = sel k bmax \/ exists i, nth_error vs (3 * i + k) = Some (sel k rmax)) /\
    (forall i x, nth_error vs (3 * i + k) = Some x -> is_nan x = false ->
       f32_le (sel k rmin) x = true /\ f32_le x (sel k rmax) = true).
Proof.
  fix IH 1. intros [|a [|b [|c rest]]] bmin bmax rmin rmax Hb Hloop k Hk;
    try discriminate.
  - simpl in Hloop. inversion Hloop; subst. destruct (Hb k) as [Hn Hx].
    split; [|split; [|split; [|split; [|split; [|split]]]]]; auto using f32_le_refl.
    intros i x Hi. destruct (3 * i + k)%nat; discriminate.
  - set (v := mkF3 a b c).
    simpl in Hloop.
    match type of Hloop with compute_bb_loop rest ?m ?M = _ =>
      set (m' := m) in Hloop; set (M' := M) in Hloop end.
    assert (Hm' : forall k, sel k m' = f32_min (sel k v) (sel k bmin))
      by (intros; apply sel_min_step).
    assert (HM' : forall k, sel k M' = f32_max (sel k v) (sel k bmax))
      by (intros; apply sel_max_step).
    assert (Hb' : forall k, is_nan (sel k m') = false /\ is_nan (sel k M') = false).
    { intros k'. rewrite Hm', HM'. destruct (Hb k') as [H1 H2].
      split; [apply (min_step_nan _ _ H1) | apply (max_step_nan _ _ H2)]. }
    destruct (IH rest m' M' rmin rmax Hb' Hloop k Hk)
      as (Nmin & Nmax & Lmin & Lmax & Amin & Amax & Bnd).
    destruct (Hb k) as [Hbn Hbx].
    destruct (min_step_nan (sel k v) _ Hbn) as (Mn & Mb & Mv & Mor).
    destruct (max_step_nan (sel k v) _ Hbx) as (Xn & Xb & Xv & Xor).
    rewrite <- Hm' in Mn, Mv, Mb, Mor. rewrite <- HM' in Xn, Xv, Xb, Xor.
    split; [|split; [|split; [|split; [|split; [|split]]]]]; auto.
    + exact (f32_le_trans _ (sel k m') _ Nmin Mn Hbn Lmin Mb).
    + exact (f32_le_trans _ (sel k M') _ Hbx Xn Nmax Xb Lmax).
    + destruct Amin as [E|[i Ei]].
      * rewrite E. destruct Mor as [E'|E']; rewrite E'; [right|left; reflexivity].
        exists 0%nat. apply nth_error_head3. exact Hk.
      * right. exists (S i). rewrite nth_error_tail3. exact Ei.
    + destruct Amax as [E|[i Ei]].
      * rewrite E. destruct Xor as [E'|E']; rewrite E'; [right|left; reflexivity].
        exists 0%nat. apply nth_error_head3. exact Hk.
      * right. exists (S i). rewrite nth_error_tail3. exact Ei.
    + intros i x Hi Hx. apply nth_error_split3 in Hi as [[-> ->]|[i' [-> Hi']]]; auto.
      split.
      * exact (f32_le_trans _ (sel k m') _ Nmin Mn Hx Lmin (Mv Hx)).
      * exact (f32_le_trans _ (sel k M') _ Hx Xn Nmax (Xv Hx) Lmax).
      * exact (Bnd i' x Hi' Hx).
Qed.

(** The box of a non-empty list of finite coordinates: every vertex lies
    in it and both bounds are coordinates of vertices. *)
Lemma compute_bb_finite_box (vs : list f32) :
  vs <> [] -> (List.length vs mod 3 = 0)%nat ->
  Forall (fun x => is_finite x = true /\ f32_valid x = true) vs ->
  exists bmin bmax, compute_bb vs = Some (bmin, bmax) /\
  forall k, (k < 3)%nat ->
    (forall i x, nth_error vs (3 * i + k) = Some x ->
       f32_le (sel k bmin) x = true /\ f32_le x (sel k bmax) = true) /\
    (exists i, nth_error vs (3 * i + k) = Some (sel k bmin)) /\
    (exists i, nth_error vs (3 * i + k) = Some (sel k bmax)).
Proof.
  intros Hne Hlen Hfin.
  destruct vs as [|a [|b [|c rest]]]; try discriminate; [congruence|].
  inversion Hfin as [|? ? [Fa Va] Hf1]; subst.
  inversion Hf1 as [|? ? [Fb Vb] Hf2]; subst.
  inversion Hf2 as [|? ? [Fc Vc] Hf3]; subst.
  assert (Hnn : Forall (fun x => is_nan x = false) rest).
  { eapply Forall_impl; [|exact Hf3]. intros x [Hx _].
    destruct x; simpl in *; congruence. }
  assert (Na : is_nan a = false) by (destruct a; simpl in *; congruence).
  assert (Nb : is_nan b = false) by (destruct b; simpl in *; congruence).
  assert (Nc : is_nan c = false) by (destruct c; simpl in *; congruence).
  set (v := mkF3 a b c).
  assert (Hv : forall k, is_nan (sel k v) = false)
    by (intros [|[|[|k']]]; assumption).
  assert (Step : compute_bb (a :: b :: c :: rest) = compute_bb_loop rest v v).
  { unfold compute_bb. cbn [compute_bb_loop x0 x1 x2].
    rewrite (f32_min_MAX a), (f32_min_MAX b), (f32_min_MAX c),
      (f32_max_MIN a), (f32_max_MIN b), (f32_max_MIN c) by assumption.
    reflexivity. }
  assert (Hl : (List.length rest mod 3 = 0)%nat)
    by (cbn [List.length] in Hlen; rewrite mod3_step in Hlen; exact Hlen).
  destruct (compute_bb_loop_some rest v v Hl) as [[rmin rmax] Hloop].
  exists rmin, rmax. rewrite Step. split; [exact Hloop|].
  intros k Hk.
  destruct (compute_bb_loop_inv rest v v rmin rmax Hnn
              (fun k => conj (Hv k) (Hv k)) Hloop k Hk)
    as (Nmin & Nmax & Lmin & Lmax & Amin & Amax & Bnd).
  split; [|split].
  - intros i x Hi.
    destruct (nth_error_split3 _ _ _ _ _ _ _ Hk Hi) as [[-> ->]|[i' [-> Hi']]].
    + split; assumption.
    + exact (Bnd i' x Hi').
  - destruct Amin as [E|[i Ei]].
    + exists 0%nat. rewrite E. apply nth_error_head3. exact Hk.
    + exists (S i). rewrite nth_error_tail3. exact Ei.
  - destruct Amax as [E|[i Ei]].
    + exists 0%nat. rewrite E. apply nth_error_head3. exact Hk.
    + exists (S i). rewrite nth_error_tail3. exact Ei.
Qed.

Lemma sel_const k x : sel k (mkF3 x x x) = x.
Proof. destruct k as [|[|[|k]]]; reflexivity. Qed.

(** ** The vertex quantisation loop of [new_from_mesh] *)

Lemma quantize_verts_some : forall vs bmin cs,
  (List.length vs mod 3 = 0)%nat -> exists cu, quantize_verts vs bmin cs = Some cu.
Proof.
  fix IH 1. intros [|a [|b [|c rest]]] bmin cs H.
  - eexists. reflexivity.
  - discriminate.
  - discriminate.
  - cbn [List.length] in H. rewrite mod3_step in H.
    destruct (IH rest bmin cs H) as [cu Hcu].
    simpl. rewrite Hcu. eexists. reflexivity.
Qed.

Lemma quantize_verts_spec : forall vs bmin cs cu,
  quantize_verts vs bmin cs = Some cu ->
  List.length cu = List.length vs /\
  Forall (fun n => (0 <= n <= u16_MAX)%Z) cu /\
  (forall i k x, (k < 3)%nat -> nth_error vs (3 * i + k) = Some x ->
     nth_error cu (3 * i + k) = Some (world_unit_to_cell_unit x (sel k bmin) cs)).
Proof.
  fix IH 1. intros [|a [|b [|c rest]]] bmin cs cu H; try discriminate.
  - inversion H; subst. split; [reflexivity|]. split; [constructor|].
    intros i k x _ Hx. destruct (3 * i + k)%nat; discriminate.
  - simpl in H. destruct (quantize_verts rest bmin cs) as [cu'|] eqn:Hr; [|discriminate].
    inversion H; subst; clear H.
    destruct (IH rest bmin cs cu' Hr) as (L & R & N).
    split; [cbn [List.length]; rewrite L; reflexivity|].
    split; [repeat constructor; try apply f32_as_u16_bounds; exact R|].
    intros i k x Hk Hx. destruct i as [|i].
    + destruct k as [|[|[|k]]]; [| | |lia]; simpl in Hx |- *; inversion Hx; reflexivity.
    + rewrite nth_error_tail3 in Hx. rewrite nth_error_tail3. exact (N i k x Hk Hx).
Qed.

(** ** [find_path]: which calls can fail how *)

Lemma find_poly_no_panic E self p r tr : fst (find_poly E self p r tr) <> Panic.
Proof.
  unfold find_poly, bind, emit; simpl.
  destruct (recastc_find_nearest_point _ _ _) as [[res result] err].
  destruct (res =? 0); [discriminate|]. destruct (np_poly result =? 0); discriminate.
Qed.

Lemma find_closest_no_panic E self p t tr : fst (find_closest E self p t tr) <> Panic.
Proof.
  unfold find_closest, bind, emit; simpl.
  destruct (recastc_find_closest_point _ _ _) as [[res result] err].
  destruct (res =? 0); discriminate.
Qed.

Lemma path_slice_none r :
  path_slice r = None <-> (Z.of_nat (List.length (path r)) < path_count r)%Z.
Proof.
  unfold path_slice. destruct (Nat.leb_spec (Z.to_nat (path_count r)) (List.length (path r)));
    split; intros H'; try discriminate; try lia; reflexivity.
Qed.

(** ** Quantisation against cell sizes *)

Lemma post_antitone q cs1 cs2 :
  f32_lt zero32 cs1 = true -> f32_valid cs1 = true -> f32_valid cs2 = true ->
  f32_le cs1 cs2 = true ->
  (f32_as_u16 (f32_max (f32_div q cs2) zero32) <=
   f32_as_u16 (f32_max (f32_div q cs1) zero32))%Z.
Proof.
  intros H1 V1 V2 L. pose proof (f32_le_ext _ _ V1 V2 L) as Le.
  pose proof (f32_as_u16_bounds (f32_max (f32_div q cs1) zero32)) as B1.
  destruct (cs_pos_cases cs1 H1) as [[m1 [e1 ->]]| ->].
  - pose proof (pos_val_pos m1 e1) as P1.
    destruct cs2 as [[|]|[|]| |[|] m2 e2]; unfold f32_ext_le in Le; cbn [f32_ext xr_le] in Le;
      rewrite ?f32_value_pos, ?f32_value_neg in Le; try contradiction;
      try (pose proof (pos_val_pos m2 e2); lra); try lra.
    + rewrite post_div_inf. lia.
    + set (v1 := (IZR (Zpos m1) * bpow e1)%R) in *. set (v2 := (IZR (Zpos m2) * bpow e2)%R) in *.
      destruct (is_finite q) eqn:Fq.
      * pose proof (f32_div_rounds q false m1 e1 Fq) as R1.
        pose proof (f32_div_rounds q false m2 e2 Fq) as R2.
        rewrite f32_value_pos in R1, R2. fold v1 in R1. fold v2 in R2.
        pose proof (as_u16_clamp_spec (f32_div q (S754_finite false m1 e1))) as S1.
        pose proof (as_u16_clamp_spec (f32_div q (S754_finite false m2 e2))) as S2.
        assert (I1 : (0 < / v1)%R) by (apply Rinv_0_lt_compat; lra).
        assert (I2 : (0 < / v2)%R) by (apply Rinv_0_lt_compat; lra).
        destruct (Rle_lt_dec (f32_value q) 0) as [Hn|Hp].
        -- assert (Z0 : (f32_value q / v2 <= 0)%R) by (unfold Rdiv; nra).
           pose proof (rounds_to_mono _ _ _ _ Z0 R2 (rounds_to_zero false)) as M.
           pose proof (as_u16_clamp_spec (S754_zero false)) as S0.
           pose proof (u16_of_xr_mono _ _ _ _ M S2 S0) as U.
           change (f32_as_u16 (f32_max (S754_zero false) zero32)) with 0%Z in U.
           lia.
        -- assert (D : (f32_value q / v2 <= f32_value q / v1)%R).
           { unfold Rdiv. apply Rmult_le_compat_l; [lra|].
             apply Rinv_le_contravar; lra. }
           exact (u16_of_xr_mono _ _ _ _ (rounds_to_mono _ _ _ _ D R2 R1) S2 S1).
      * destruct q as [[|]|[|]| |]; try discriminate Fq; cbn; lia.
  - apply xr_le_posinf_inv, f32_ext_posinf in Le. subst cs2.
    rewrite !post_div_inf. lia.
Qed.

(** ** Extra properties *)

(** X1: [compute_bb] panics (index out of bounds) exactly when the
    length of the coordinate list is not a multiple of 3. *)
Theorem compute_bb_none_iff (vs : list f32) :
  compute_bb vs = None <-> (List.length vs mod 3 <> 0)%nat.
Proof.
  split.
  - intros H Hm. destruct (compute_bb_loop_some vs (mkF3 f32_MAX f32_MAX f32_MAX)
      (mkF3 f32_MIN f32_MIN f32_MIN) Hm) as [r Hr].
    unfold compute_bb in H. congruence.
  - intros H. apply compute_bb_loop_none, H.
Qed.

(** X2: NaN coordinates are ignored by [compute_bb]: for any list of
    length a multiple of 3, no bound is NaN, each bound is its initial
    value ([f32::MAX] for the minimum, [f32::MIN] for the maximum) or a
    coordinate of some vertex on that axis, and every non-NaN coordinate
    lies between the two bounds. *)
Theorem compute_bb_ignores_nan (vs : list f32) :
  (List.length vs mod 3 = 0)%nat ->
  exists bmin bmax, compute_bb vs = Some (bmin, bmax) /\
  forall k, (k < 3)%nat ->
    is_nan (sel k bmin) = false /\ is_nan (sel k bmax) = false /\
    (sel k bmin = f32_MAX \/ exists i, nth_error vs (3 * i + k) = Some (sel k bmin)) /\
    (sel k bmax = f32_MIN \/ exists i, nth_error vs (3 * i + k) = Some (sel k bmax)) /\
    (forall i x, nth_error vs (3 * i + k) = Some x -> is_nan x = false ->
       f32_le (sel k bmin) x = true /\ f32_le x (sel k bmax) = true).
Proof.
  intros Hlen.
  destruct (compute_bb_loop_some vs (mkF3 f32_MAX f32_MAX f32_MAX)
      (mkF3 f32_MIN f32_MIN f32_MIN) Hlen) as [[rmin rmax] Hr].
  exists rmin, rmax. split; [exact Hr|]. intros k Hk.
  assert (Hb : forall k, is_nan (sel k (mkF3 f32_MAX f32_MAX f32_MAX)) = false /\
                         is_nan (sel k (mkF3 f32_MIN f32_MIN f32_MIN)) = false)
    by (intros k'; rewrite !sel_const; split; reflexivity).
  destruct (compute_bb_loop_inv_nan vs _ _ rmin rmax Hb Hr k Hk)
    as (Nmin & Nmax & _ & _ & Amin & Amax & Bnd).
  rewrite !sel_const in Amin, Amax. auto.
Qed.

Lemma compute_bb_ignores_nan_witness :
  exists bmin bmax,
    compute_bb [S754_nan; zero32; zero32; one32; S754_nan; zero32] = Some (bmin, bmax) /\
    is_nan (sel 0 bmin) = false.
Proof.
  destruct (compute_bb_ignores_nan [S754_nan; zero32; zero32; one32; S754_nan; zero32]
              eq_refl) as (bmin & bmax & H & K).
  exists bmin, bmax. split; [exact H|].
  exact (proj1 (K 0%nat ltac:(lia))).
Defined.

(** X3: [new_from_mesh] panics exactly when the vertex list's length is
    not a multiple of 3, and then before any engine call. *)
Theorem new_from_mesh_panics_iff (E : Engine) (data : NavMeshData) tr :
  ((List.length (vertices data) mod 3 <> 0)%nat -> new_from_mesh E data tr = (Panic, tr)) /\
  (fst (new_from_mesh E data tr) = Panic -> (List.length (vertices data) mod 3 <> 0)%nat).
Proof.
  split.
  - intros H. unfold new_from_mesh. unfold compute_bb.
    rewrite (compute_bb_loop_none _ _ _ H). reflexivity.
  - intros H Hm. unfold new_from_mesh in H.
    destruct (compute_bb_loop_some (vertices data) (mkF3 f32_MAX f32_MAX f32_MAX)
      (mkF3 f32_MIN f32_MIN f32_MIN) Hm) as [[bmin bmax] Hr].
    unfold compute_bb in H. rewrite Hr in H.
    destruct (quantize_verts_some (vertices data) bmin (cell_size data) Hm) as [cu Hq].
    rewrite Hq in H.
    destruct (recastc_create_query _ _) as [p err]. unfold bind, emit in H.
    destruct p; discriminate H.
Qed.

(** X4: for a vertex list of length a multiple of 3, [new_from_mesh]
    makes exactly one engine call, [recastc_create_query], and returns the
    query when the engine's pointer is non-null and
    [CreateQueryError] with the engine's diagnostic otherwise.  The mesh
    it hands over carries the bounding box of [compute_bb], one cell
    coordinate per world coordinate (vertex [i], axis [k] quantised
    against [bmin[k]] with the mesh's cell size, each in [[0, 65535]]),
    [vert_count] = [(vertices.len() / 3) as u32] (the number of vertices
    when it is below [2^32]), the indices unchanged with [triangles_count]
    = [(indices.len() / 3) as u32], and the walkable and cell parameters
    unchanged. *)
Theorem new_from_mesh_engine_data (E : Engine) (data : NavMeshData) tr :
  (List.length (vertices data) mod 3 = 0)%nat ->
  exists bmin bmax sd,
    compute_bb (vertices data) = Some (bmin, bmax) /\
    new_from_mesh E data tr =
      (let '(p, err) := recastc_create_query E sd in
       (match p with Zpos a => Ok {| q := a |} | _ => Err (CreateQueryError err) end,
        tr ++ [EvCreate p])) /\
    nm_bmin sd = bmin /\ nm_bmax sd = bmax /\
    List.length (verts sd) = List.length (vertices data) /\
    (forall i k x, (k < 3)%nat -> nth_error (vertices data) (3 * i + k) = Some x ->
       nth_error (verts sd) (3 * i + k) =
         Some (world_unit_to_cell_unit x (sel k bmin) (cell_size data))) /\
    Forall (fun n => (0 <= n <= u16_MAX)%Z) (verts sd) /\
    vert_count sd = as_u32 (Z.of_nat (List.length (vertices data)) / 3) /\
    ((Z.of_nat (List.length (vertices data)) < 3 * 2 ^ 32)%Z ->
     (3 * vert_count sd)%Z = Z.of_nat (List.length (vertices data))) /\
    indices sd = nd_indices data /\
    triangles_count sd = as_u32 (Z.of_nat (List.length (nd_indices data)) / 3) /\
    nm_cell_size sd = cell_size data /\ nm_cell_height sd = cell_height data /\
    nm_walkable_height sd = walkable_height data /\
    nm_walkable_radius sd = walkable_radius data /\
    nm_walkable_climb sd = walkable_climb data.
Proof.
  intros Hm.
  destruct (compute_bb_loop_some (vertices data) (mkF3 f32_MAX f32_MAX f32_MAX)
    (mkF3 f32_MIN f32_MIN f32_MIN) Hm) as [[bmin bmax] Hr].
  destruct (quantize_verts_some (vertices data) bmin (cell_size data) Hm) as [cu Hq].
  destruct (quantize_verts_spec _ _ _ _ Hq) as (L & R & N).
  exists bmin, bmax.
  unfold new_from_mesh. unfold compute_bb in *. rewrite Hr, Hq. cbv zeta.
  match goal with |- context [recastc_create_query E ?sd] => exists sd end.
  split; [reflexivity|]. split.
  { destruct (recastc_create_query _ _) as [p err]. unfold bind, emit.
    destruct p; reflexivity. }
  cbn [nm_bmin nm_bmax verts vert_count indices triangles_count nm_cell_size
       nm_cell_height nm_walkable_height nm_walkable_radius nm_walkable_climb].
  split; [reflexivity|]. split; [reflexivity|]. split; [exact L|].
  split; [exact N|]. split; [exact R|]. split; [reflexivity|]. split.
  { intros Hsmall. unfold as_u32.
    set (n := (List.length (vertices data) / 3)%nat) in *.
    assert (En : List.length (vertices data) = (3 * n)%nat)
      by (pose proof (Nat.div_mod_eq (List.length (vertices data)) 3); lia).
    rewrite En in Hsmall |- *. rewrite Nat2Z.inj_mul in Hsmall |- *.
    change (Z.of_nat 3) with 3%Z in Hsmall |- *.
    rewrite (Z.mul_comm 3 (Z.of_nat n)), Z.div_mul by lia.
    rewrite Z.mod_small by lia. lia. }
  repeat split.
Qed.

Lemma new_from_mesh_engine_data_witness :
  let data := {| vertices := [zero32; zero32; zero32; one32; one32; one32];
                 nd_indices := [0; 1; 2];
                 walkable_height := zero32; walkable_radius := zero32;
                 walkable_climb := zero32; cell_size := one32;
                 cell_height := one32 |} in
  (List.length (vertices data) mod 3 = 0)%nat /\
  exists bmin bmax sd,
    compute_bb (vertices data) = Some (bmin, bmax) /\
    nth_error (verts sd) 3 = Some 1%Z /\
    vert_count sd = 2%Z /\ triangles_count sd = 1%Z.
Proof.
  intros data. split; [reflexivity|].
  destruct (new_from_mesh_engine_data (demo_engine 1 1 1 [1] 1 EmptyString) data []
              eq_refl) as (bmin & bmax & sd & H & _ & _ & _ & _ & N & _ & VC & _ & _ & TC & _).
  exists bmin, bmax, sd. split; [exact H|].
  split; [|split; [rewrite VC; reflexivity | rewrite TC; reflexivity]].
  pose proof (N 1%nat 0%nat one32 ltac:(lia) eq_refl) as N1.
  change (3 * 1 + 0)%nat with 3%nat in N1. rewrite N1.
  vm_compute in H. injection H as E1 E2. subst bmin. vm_compute. reflexivity.
Defined.

(** X5: with an empty vertex list, [new_from_mesh] does not fail on its
    side: it hands the engine zero vertices and the inverted box
    [bmin = f32::MAX], [bmax = f32::MIN] of the untouched accumulators. *)
Theorem new_from_mesh_empty_vertices (E : Engine) (data : NavMeshData) tr :
  vertices data = [] ->
  exists sd,
    new_from_mesh E data tr =
      (let '(p, err) := recastc_create_query E sd in
       (match p with Zpos a => Ok {| q := a |} | _ => Err (CreateQueryError err) end,
        tr ++ [EvCreate p])) /\
    verts sd = [] /\ vert_count sd = 0%Z /\
    nm_bmin sd = mkF3 f32_MAX f32_MAX f32_MAX /\
    nm_bmax sd = mkF3 f32_MIN f32_MIN f32_MIN.
Proof.
  intros H. unfold new_from_mesh. rewrite H.
  cbn [compute_bb compute_bb_loop quantize_verts]. cbv zeta.
  match goal with |- context [recastc_create_query E ?sd] => exists sd end.
  split; [|repeat split].
  destruct (recastc_create_query _ _) as [p err]. unfold bind, emit.
  destruct p; reflexivity.
Qed.

Lemma new_from_mesh_empty_vertices_witness :
  exists sd, verts sd = [] /\
    nm_bmin sd = mkF3 f32_MAX f32_MAX f32_MAX.
Proof.
  destruct (new_from_mesh_empty_vertices (demo_engine 1 1 1 [1] 1 EmptyString)
              {| vertices := []; nd_indices := [];
                 walkable_height := zero32; walkable_radius := zero32;
                 walkable_climb := zero32; cell_size := one32;
                 cell_height := one32 |} [] eq_refl)
    as (sd & _ & V & _ & B & _).
  exists sd. split; assumption.
Defined.

(** X6: for a non-empty mesh of finite coordinates and a cell size
    [cs > 0], the cell coordinates of [new_from_mesh] start at 0 on every
    axis (the vertex at the box's minimum gets 0) and the largest one on
    each axis is that of the vertex at the box's maximum. *)
Theorem new_from_mesh_cell_range (vs : list f32) (cs : f32) :
  vs <> [] -> (List.length vs mod 3 = 0)%nat ->
  Forall (fun x => is_finite x = true /\ f32_valid x = true) vs ->
  f32_lt zero32 cs = true ->
  exists bmin bmax cu,
    compute_bb vs = Some (bmin, bmax) /\ quantize_verts vs bmin cs = Some cu /\
    forall k, (k < 3)%nat ->
      (exists i, nth_error cu (3 * i + k) = Some 0%Z) /\
      (exists i, nth_error cu (3 * i + k) =
                 Some (world_unit_to_cell_unit (sel k bmax) (sel k bmin) cs)) /\
      (forall i n, nth_error cu (3 * i + k) = Some n ->
         (0 <= n <= world_unit_to_cell_unit (sel k bmax) (sel k bmin) cs)%Z).
Proof.
  intros Hne Hlen Hfin Hc.
  destruct (compute_bb_finite_box vs Hne Hlen Hfin) as (bmin & bmax & Hbb & Box).
  destruct (quantize_verts_some vs bmin cs Hlen) as [cu Hq].
  destruct (quantize_verts_spec _ _ _ _ Hq) as (L & R & N).
  exists bmin, bmax, cu. split; [exact Hbb|]. split; [exact Hq|].
  intros k Hk. destruct (Box k Hk) as (Bnd & [imin Emin] & [imax Emax]).
  assert (Vof : forall i x, nth_error vs (3 * i + k) = Some x ->
                  is_finite x = true /\ f32_valid x = true).
  { intros i x Hx. apply nth_error_In in Hx.
    rewrite Forall_forall in Hfin. exact (Hfin x Hx). }
  destruct (Vof _ _ Emin) as [Fmin Vmin]. destruct (Vof _ _ Emax) as [Fmax Vmax].
  assert (Nmin : is_nan (sel k bmin) = false)
    by (destruct (sel k bmin); simpl in *; congruence).
  split; [|split].
  - exists imin. rewrite (N imin k _ Hk Emin).
    rewrite (quantize_self _ cs Vmin Nmin Hc). reflexivity.
  - exists imax. exact (N imax k _ Hk Emax).
  - intros i n Hn.
    assert (Hi : (3 * i + k < List.length vs)%nat).
    { rewrite <- L. apply nth_error_Some. congruence. }
    destruct (nth_error vs (3 * i + k)) as [x|] eqn:Ex;
      [|apply nth_error_None in Ex; lia].
    rewrite (N i k x Hk Ex) in Hn. inversion Hn; subst n.
    destruct (Vof _ _ Ex) as [_ Vx]. destruct (Bnd i x Ex) as [_ Lx].
    split; [exact (proj1 (f32_as_u16_bounds _))|].
    exact (quantize_mono x (sel k bmax) (sel k bmin) cs Vx Vmax Vmin Hc Lx).
Qed.

Lemma new_from_mesh_cell_range_witness :
  exists bmin bmax cu,
    compute_bb [zero32; zero32; zero32; one32; one32; one32] = Some (bmin, bmax) /\
    quantize_verts [zero32; zero32; zero32; one32; one32; one32] bmin one32 = Some cu.
Proof.
  destruct (new_from_mesh_cell_range [zero32; zero32; zero32; one32; one32; one32] one32
              ltac:(discriminate) eq_refl ltac:(repeat constructor) eq_refl)
    as (bmin & bmax & cu & H1 & H2 & _).
  exists bmin, bmax, cu. split; assumption.
Defined.

(** X7: a coarser cell never gives a larger cell coordinate: for cell
    sizes [0 < cs1 <= cs2], [world_unit_to_cell_unit f bmin cs2 <=
    world_unit_to_cell_unit f bmin cs1], for any [f] and [bmin]. *)
Theorem world_unit_to_cell_unit_antitone_cs (f bmin cs1 cs2 : f32) :
  f32_valid cs1 = true -> f32_valid cs2 = true ->
  f32_lt zero32 cs1 = true -> f32_le cs1 cs2 = true ->
  (world_unit_to_cell_unit f bmin cs2 <= world_unit_to_cell_unit f bmin cs1)%Z.
Proof.
  intros V1 V2 H1 L. exact (post_antitone (f32_sub f bmin) cs1 cs2 H1 V1 V2 L).
Qed.

Lemma world_unit_to_cell_unit_antitone_cs_witness :
  f32_le one32 (S754_finite false 8388608 (-22)) = true /\
  (world_unit_to_cell_unit one32 zero32 (S754_finite false 8388608 (-22)) <=
   world_unit_to_cell_unit one32 zero32 one32)%Z.
Proof.
  split; [reflexivity|].
  exact (world_unit_to_cell_unit_antitone_cs one32 zero32 one32
           (S754_finite false 8388608 (-22)) eq_refl eq_refl eq_refl eq_refl).
Defined.

(** X8: when an endpoint cannot be resolved, [find_path] returns that
    endpoint's error at once: a failing start resolution skips the end
    resolution, and a failing end resolution skips the corridor query;
    no other engine call is made. *)
Theorem find_path_endpoint_failure (E : Engine) self start end_ r tr :
  (forall e tr1, find_poly E self start r tr = (Err e, tr1) ->
     find_path E self start end_ r tr =
       (Err e, tr ++ [EvNearest (qptr self)
                        {| center := pos start; half_extents := mkF3 r r r |}])) /\
  (forall sp tr1 e tr2, find_poly E self start r tr = (Ok sp, tr1) ->
     find_poly E self end_ r tr1 = (Err e, tr2) ->
     find_path E self start end_ r tr =
       (Err e, tr ++ [EvNearest (qptr self)
                        {| center := pos start; half_extents := mkF3 r r r |};
                      EvNearest (qptr self)
                        {| center := pos end_; half_extents := mkF3 r r r |}])).
Proof.
  pose proof (find_poly_trace E self start r tr) as T1.
  split.
  - intros e tr1 H. rewrite H in T1. simpl in T1. subst tr1.
    unfold find_path. exact (bind_err _ _ _ _ _ H).
  - intros [sp spoly] tr1 e tr2 H1 H2. rewrite H1 in T1. simpl in T1. subst tr1.
    pose proof (find_poly_trace E self end_ r (tr ++ [EvNearest (qptr self)
                  {| center := pos start; half_extents := mkF3 r r r |}])) as T2.
    rewrite H2 in T2. simpl in T2. subst tr2.
    unfold find_path. rewrite (bind_ok _ _ _ _ _ H1). cbv beta iota.
    rewrite (bind_err _ _ _ _ _ H2). rewrite <- app_assoc. reflexivity.
Qed.

(** X9: [find_path] panics exactly when both endpoints resolve, the
    corridor query succeeds, and the engine reports more corridor
    polygons ([path_count]) than its path array holds; in every other
    case it returns [Ok] or [Err]. *)
Theorem find_path_panics_iff (E : Engine) self start end_ r tr :
  fst (find_path E self start end_ r tr) = Panic <->
  exists sp spoly tr1 ep epoly tr2 res result err,
    find_poly E self start r tr = (Ok (sp, spoly), tr1) /\
    find_poly E self end_ r tr1 = (Ok (ep, epoly), tr2) /\
    recastc_find_path E (qptr self)
      {| start_poly := spoly; start_pos := pos sp;
         end_poly := epoly; end_pos := pos ep |} = (res, result, err) /\
    res <> 0%Z /\
    (Z.of_nat (List.length (path result)) < path_count result)%Z.
Proof.
  split.
  - intros H.
    destruct (find_poly E self start r tr) as [[[sp spoly]|e|] tr1] eqn:H1.
    + destruct (find_poly E self end_ r tr1) as [[[ep epoly]|e|] tr2] eqn:H2.
      * rewrite (find_path_after_resolution E self start end_ r tr tr1 tr2
                   sp spoly ep epoly H1 H2) in H.
        cbv zeta in H.
        destruct (recastc_find_path _ _ _) as [[res result] err] eqn:H3.
        destruct (res =? 0)%Z eqn:Hr; [discriminate H|].
        destruct (path_slice result) as [p|] eqn:Hs.
        -- destruct p as [|a [|b l]]; try discriminate H.
           exfalso. exact (find_closest_no_panic _ _ _ _ _ H).
        -- exists sp, spoly, tr1, ep, epoly, tr2, res, result, err.
           repeat split; auto.
           ++ apply Z.eqb_neq, Hr.
           ++ apply path_slice_none, Hs.
      * unfold find_path in H. rewrite (bind_ok _ _ _ _ _ H1) in H.
        cbv beta iota in H. rewrite (bind_err _ _ _ _ _ H2) in H. discriminate H.
      * exfalso. apply (find_poly_no_panic E self end_ r tr1). rewrite H2. reflexivity.
    + unfold find_path in H. rewrite (bind_err _ _ _ _ _ H1) in H. discriminate H.
    + exfalso. apply (find_poly_no_panic E self start r tr). rewrite H1. reflexivity.
  - intros (sp & spoly & tr1 & ep & epoly & tr2 & res & result & err & H1 & H2 & H3 & Hr & Hc).
    rewrite (find_path_after_resolution E self start end_ r tr tr1 tr2
               sp spoly ep epoly H1 H2).
    cbv zeta. rewrite H3. apply Z.eqb_neq in Hr. rewrite Hr.
    apply path_slice_none in Hc. rewrite Hc. reflexivity.
Qed.
